(** * xl2usernames: the username candidate generator

    A shallow embedding of [generate_username_combinations] from
    [xl2usernames.py], together with the fragments of the Python runtime it
    calls: [str.lower], [str.strip], [str.split], [str.join], sequence
    indexing, [range], [itertools.combinations], [set.add] and [sorted].

    A Python [str] is a sequence of Unicode code points; it is modelled as a
    list of [N].  The character tables are those of the Unicode Character
    Database 14.0.0, the version CPython 3.11 ships. *)

From Stdlib Require Import List NArith ZArith Bool Lia Arith.
From Stdlib Require Import Sorted Permutation String Ascii.
Import ListNotations.

Definition char := N.
Definition str := list char.

(** ** The Unicode character database *)

Module Unicode.
Local Open Scope N_scope.

(** Code points for which [str.isspace] holds, as inclusive ranges. *)
Definition whitespace_table : list (N * N) :=
  [
    (0x9, 0xd); (0x1c, 0x20); (0x85, 0x85); (0xa0, 0xa0); (0x1680, 0x1680); (0x2000, 0x200a);
    (0x2028, 0x2029); (0x202f, 0x202f); (0x205f, 0x205f); (0x3000, 0x3000)
  ].

(** Simple lowercase mappings: [(lo, hi, step, tlo)] sends every [c = lo + k * step <= hi] to [tlo + (c - lo)]. *)
Definition lower_table : list (N * N * N * N) :=
  [
    (0x41, 0x5a, 1, 0x61); (0xc0, 0xd6, 1, 0xe0); (0xd8, 0xde, 1, 0xf8);
    (0x100, 0x12e, 2, 0x101); (0x132, 0x136, 2, 0x133); (0x139, 0x147, 2, 0x13a);
    (0x14a, 0x176, 2, 0x14b); (0x178, 0x178, 1, 0xff); (0x179, 0x17d, 2, 0x17a);
    (0x181, 0x181, 1, 0x253); (0x182, 0x184, 2, 0x183); (0x186, 0x186, 1, 0x254);
    (0x187, 0x187, 1, 0x188); (0x189, 0x18a, 1, 0x256); (0x18b, 0x18b, 1, 0x18c);
    (0x18e, 0x18e, 1, 0x1dd); (0x18f, 0x18f, 1, 0x259); (0x190, 0x190, 1, 0x25b);
    (0x191, 0x191, 1, 0x192); (0x193, 0x193, 1, 0x260); (0x194, 0x194, 1, 0x263);
    (0x196, 0x196, 1, 0x269); (0x197, 0x197, 1, 0x268); (0x198, 0x198, 1, 0x199);
    (0x19c, 0x19c, 1, 0x26f); (0x19d, 0x19d, 1, 0x272); (0x19f, 0x19f, 1, 0x275);
    (0x1a0, 0x1a4, 2, 0x1a1); (0x1a6, 0x1a6, 1, 0x280); (0x1a7, 0x1a7, 1, 0x1a8);
    (0x1a9, 0x1a9, 1, 0x283); (0x1ac, 0x1ac, 1, 0x1ad); (0x1ae, 0x1ae, 1, 0x288);
    (0x1af, 0x1af, 1, 0x1b0); (0x1b1, 0x1b2, 1, 0x28a); (0x1b3, 0x1b5, 2, 0x1b4);
    (0x1b7, 0x1b7, 1, 0x292); (0x1b8, 0x1b8, 1, 0x1b9); (0x1bc, 0x1bc, 1, 0x1bd);
    (0x1c4, 0x1c4, 1, 0x1c6); (0x1c5, 0x1c5, 1, 0x1c6); (0x1c7, 0x1c7, 1, 0x1c9);
    (0x1c8, 0x1c8, 1, 0x1c9); (0x1ca, 0x1ca, 1, 0x1cc); (0x1cb, 0x1db, 2, 0x1cc);
    (0x1de, 0x1ee, 2, 0x1df); (0x1f1, 0x1f1, 1, 0x1f3); (0x1f2, 0x1f4, 2, 0x1f3);
    (0x1f6, 0x1f6, 1, 0x195); (0x1f7, 0x1f7, 1, 0x1bf); (0x1f8, 0x21e, 2, 0x1f9);
    (0x220, 0x220, 1, 0x19e); (0x222, 0x232, 2, 0x223); (0x23a, 0x23a, 1, 0x2c65);
    (0x23b, 0x23b, 1, 0x23c); (0x23d, 0x23d, 1, 0x19a); (0x23e, 0x23e, 1, 0x2c66);
    (0x241, 0x241, 1, 0x242); (0x243, 0x243, 1, 0x180); (0x244, 0x244, 1, 0x289);
    (0x245, 0x245, 1, 0x28c); (0x246, 0x24e, 2, 0x247); (0x370, 0x372, 2, 0x371);
    (0x376, 0x376, 1, 0x377); (0x37f, 0x37f, 1, 0x3f3); (0x386, 0x386, 1, 0x3ac);
    (0x388, 0x38a, 1, 0x3ad); (0x38c, 0x38c, 1, 0x3cc); (0x38e, 0x38f, 1, 0x3cd);
    (0x391, 0x3a1, 1, 0x3b1); (0x3a3, 0x3ab, 1, 0x3c3); (0x3cf, 0x3cf, 1, 0x3d7);
    (0x3d8, 0x3ee, 2, 0x3d9); (0x3f4, 0x3f4, 1, 0x3b8); (0x3f7, 0x3f7, 1, 0x3f8);
    (0x3f9, 0x3f9, 1, 0x3f2); (0x3fa, 0x3fa, 1, 0x3fb); (0x3fd, 0x3ff, 1, 0x37b);
    (0x400, 0x40f, 1, 0x450); (0x410, 0x42f, 1, 0x430); (0x460, 0x480, 2, 0x461);
    (0x48a, 0x4be, 2, 0x48b); (0x4c0, 0x4c0, 1, 0x4cf); (0x4c1, 0x4cd, 2, 0x4c2);
    (0x4d0, 0x52e, 2, 0x4d1); (0x531, 0x556, 1, 0x561); (0x10a0, 0x10c5, 1, 0x2d00);
    (0x10c7, 0x10c7, 1, 0x2d27); (0x10cd, 0x10cd, 1, 0x2d2d); (0x13a0, 0x13ef, 1, 0xab70);
    (0x13f0, 0x13f5, 1, 0x13f8); (0x1c90, 0x1cba, 1, 0x10d0); (0x1cbd, 0x1cbf, 1, 0x10fd);
    (0x1e00, 0x1e94, 2, 0x1e01); (0x1e9e, 0x1e9e, 1, 0xdf); (0x1ea0, 0x1efe, 2, 0x1ea1);
    (0x1f08, 0x1f0f, 1, 0x1f00); (0x1f18, 0x1f1d, 1, 0x1f10); (0x1f28, 0x1f2f, 1, 0x1f20);
    (0x1f38, 0x1f3f, 1, 0x1f30); (0x1f48, 0x1f4d, 1, 0x1f40); (0x1f59, 0x1f5f, 2, 0x1f51);
    (0x1f68, 0x1f6f, 1, 0x1f60); (0x1f88, 0x1f8f, 1, 0x1f80); (0x1f98, 0x1f9f, 1, 0x1f90);
    (0x1fa8, 0x1faf, 1, 0x1fa0); (0x1fb8, 0x1fb9, 1, 0x1fb0); (0x1fba, 0x1fbb, 1, 0x1f70);
    (0x1fbc, 0x1fbc, 1, 0x1fb3); (0x1fc8, 0x1fcb, 1, 0x1f72); (0x1fcc, 0x1fcc, 1, 0x1fc3);
    (0x1fd8, 0x1fd9, 1, 0x1fd0); (0x1fda, 0x1fdb, 1, 0x1f76); (0x1fe8, 0x1fe9, 1, 0x1fe0);
    (0x1fea, 0x1feb, 1, 0x1f7a); (0x1fec, 0x1fec, 1, 0x1fe5); (0x1ff8, 0x1ff9, 1, 0x1f78);
    (0x1ffa, 0x1ffb, 1, 0x1f7c); (0x1ffc, 0x1ffc, 1, 0x1ff3); (0x2126, 0x2126, 1, 0x3c9);
    (0x212a, 0x212a, 1, 0x6b); (0x212b, 0x212b, 1, 0xe5); (0x2132, 0x2132, 1, 0x214e);
    (0x2160, 0x216f, 1, 0x2170); (0x2183, 0x2183, 1, 0x2184); (0x24b6, 0x24cf, 1, 0x24d0);
    (0x2c00, 0x2c2f, 1, 0x2c30); (0x2c60, 0x2c60, 1, 0x2c61); (0x2c62, 0x2c62, 1, 0x26b);
    (0x2c63, 0x2c63, 1, 0x1d7d); (0x2c64, 0x2c64, 1, 0x27d); (0x2c67, 0x2c6b, 2, 0x2c68);
    (0x2c6d, 0x2c6d, 1, 0x251); (0x2c6e, 0x2c6e, 1, 0x271); (0x2c6f, 0x2c6f, 1, 0x250);
    (0x2c70, 0x2c70, 1, 0x252); (0x2c72, 0x2c72, 1, 0x2c73); (0x2c75, 0x2c75, 1, 0x2c76);
    (0x2c7e, 0x2c7f, 1, 0x23f); (0x2c80, 0x2ce2, 2, 0x2c81); (0x2ceb, 0x2ced, 2, 0x2cec);
    (0x2cf2, 0x2cf2, 1, 0x2cf3); (0xa640, 0xa66c, 2, 0xa641); (0xa680, 0xa69a, 2, 0xa681);
    (0xa722, 0xa72e, 2, 0xa723); (0xa732, 0xa76e, 2, 0xa733); (0xa779, 0xa77b, 2, 0xa77a);
    (0xa77d, 0xa77d, 1, 0x1d79); (0xa77e, 0xa786, 2, 0xa77f); (0xa78b, 0xa78b, 1, 0xa78c);
    (0xa78d, 0xa78d, 1, 0x265); (0xa790, 0xa792, 2, 0xa791); (0xa796, 0xa7a8, 2, 0xa797);
    (0xa7aa, 0xa7aa, 1, 0x266); (0xa7ab, 0xa7ab, 1, 0x25c); (0xa7ac, 0xa7ac, 1, 0x261);
    (0xa7ad, 0xa7ad, 1, 0x26c); (0xa7ae, 0xa7ae, 1, 0x26a); (0xa7b0, 0xa7b0, 1, 0x29e);
    (0xa7b1, 0xa7b1, 1, 0x287); (0xa7b2, 0xa7b2, 1, 0x29d); (0xa7b3, 0xa7b3, 1, 0xab53);
    (0xa7b4, 0xa7c2, 2, 0xa7b5); (0xa7c4, 0xa7c4, 1, 0xa794); (0xa7c5, 0xa7c5, 1, 0x282);
    (0xa7c6, 0xa7c6, 1, 0x1d8e); (0xa7c7, 0xa7c9, 2, 0xa7c8); (0xa7d0, 0xa7d0, 1, 0xa7d1);
    (0xa7d6, 0xa7d8, 2, 0xa7d7); (0xa7f5, 0xa7f5, 1, 0xa7f6); (0xff21, 0xff3a, 1, 0xff41);
    (0x10400, 0x10427, 1, 0x10428); (0x104b0, 0x104d3, 1, 0x104d8);
    (0x10570, 0x1057a, 1, 0x10597); (0x1057c, 0x1058a, 1, 0x105a3);
    (0x1058c, 0x10592, 1, 0x105b3); (0x10594, 0x10595, 1, 0x105bb);
    (0x10c80, 0x10cb2, 1, 0x10cc0); (0x118a0, 0x118bf, 1, 0x118c0);
    (0x16e40, 0x16e5f, 1, 0x16e60); (0x1e900, 0x1e921, 1, 0x1e922)
  ].

(** Code points whose full lowercase mapping is not a single code point. *)
Definition lower_special : list (N * list N) :=
  [
    (0x130, [0x69; 0x307])
  ].

(** Simple uppercase mappings, in the format of [lower_table]. *)
Definition upper_table : list (N * N * N * N) :=
  [
    (0x61, 0x7a, 1, 0x41); (0xb5, 0xb5, 1, 0x39c); (0xe0, 0xf6, 1, 0xc0);
    (0xf8, 0xfe, 1, 0xd8); (0xff, 0xff, 1, 0x178); (0x101, 0x12f, 2, 0x100);
    (0x131, 0x131, 1, 0x49); (0x133, 0x137, 2, 0x132); (0x13a, 0x148, 2, 0x139);
    (0x14b, 0x177, 2, 0x14a); (0x17a, 0x17e, 2, 0x179); (0x17f, 0x17f, 1, 0x53);
    (0x180, 0x180, 1, 0x243); (0x183, 0x185, 2, 0x182); (0x188, 0x188, 1, 0x187);
    (0x18c, 0x18c, 1, 0x18b); (0x192, 0x192, 1, 0x191); (0x195, 0x195, 1, 0x1f6);
    (0x199, 0x199, 1, 0x198); (0x19a, 0x19a, 1, 0x23d); (0x19e, 0x19e, 1, 0x220);
    (0x1a1, 0x1a5, 2, 0x1a0); (0x1a8, 0x1a8, 1, 0x1a7); (0x1ad, 0x1ad, 1, 0x1ac);
    (0x1b0, 0x1b0, 1, 0x1af); (0x1b4, 0x1b6, 2, 0x1b3); (0x1b9, 0x1b9, 1, 0x1b8);
    (0x1bd, 0x1bd, 1, 0x1bc); (0x1bf, 0x1bf, 1, 0x1f7); (0x1c5, 0x1c5, 1, 0x1c4);
    (0x1c6, 0x1c6, 1, 0x1c4); (0x1c8, 0x1c8, 1, 0x1c7); (0x1c9, 0x1c9, 1, 0x1c7);
    (0x1cb, 0x1cb, 1, 0x1ca); (0x1cc, 0x1cc, 1, 0x1ca); (0x1ce, 0x1dc, 2, 0x1cd);
    (0x1dd, 0x1dd, 1, 0x18e); (0x1df, 0x1ef, 2, 0x1de); (0x1f2, 0x1f2, 1, 0x1f1);
    (0x1f3, 0x1f3, 1, 0x1f1); (0x1f5, 0x1f5, 1, 0x1f4); (0x1f9, 0x21f, 2, 0x1f8);
    (0x223, 0x233, 2, 0x222); (0x23c, 0x23c, 1, 0x23b); (0x23f, 0x240, 1, 0x2c7e);
    (0x242, 0x242, 1, 0x241); (0x247, 0x24f, 2, 0x246); (0x250, 0x250, 1, 0x2c6f);
    (0x251, 0x251, 1, 0x2c6d); (0x252, 0x252, 1, 0x2c70); (0x253, 0x253, 1, 0x181);
    (0x254, 0x254, 1, 0x186); (0x256, 0x257, 1, 0x189); (0x259, 0x259, 1, 0x18f);
    (0x25b, 0x25b, 1, 0x190); (0x25c, 0x25c, 1, 0xa7ab); (0x260, 0x260, 1, 0x193);
    (0x261, 0x261, 1, 0xa7ac); (0x263, 0x263, 1, 0x194); (0x265, 0x265, 1, 0xa78d);
    (0x266, 0x266, 1, 0xa7aa); (0x268, 0x268, 1, 0x197); (0x269, 0x269, 1, 0x196);
    (0x26a, 0x26a, 1, 0xa7ae); (0x26b, 0x26b, 1, 0x2c62); (0x26c, 0x26c, 1, 0xa7ad);
    (0x26f, 0x26f, 1, 0x19c); (0x271, 0x271, 1, 0x2c6e); (0x272, 0x272, 1, 0x19d);
    (0x275, 0x275, 1, 0x19f); (0x27d, 0x27d, 1, 0x2c64); (0x280, 0x280, 1, 0x1a6);
    (0x282, 0x282, 1, 0xa7c5); (0x283, 0x283, 1, 0x1a9); (0x287, 0x287, 1, 0xa7b1);
    (0x288, 0x288, 1, 0x1ae); (0x289, 0x289, 1, 0x244); (0x28a, 0x28b, 1, 0x1b1);
    (0x28c, 0x28c, 1, 0x245); (0x292, 0x292, 1, 0x1b7); (0x29d, 0x29d, 1, 0xa7b2);
    (0x29e, 0x29e, 1, 0xa7b0); (0x345, 0x345, 1, 0x399); (0x371, 0x373, 2, 0x370);
    (0x377, 0x377, 1, 0x376); (0x37b, 0x37d, 1, 0x3fd); (0x3ac, 0x3ac, 1, 0x386);
    (0x3ad, 0x3af, 1, 0x388); (0x3b1, 0x3c1, 1, 0x391); (0x3c2, 0x3c2, 1, 0x3a3);
    (0x3c3, 0x3cb, 1, 0x3a3); (0x3cc, 0x3cc, 1, 0x38c); (0x3cd, 0x3ce, 1, 0x38e);
    (0x3d0, 0x3d0, 1, 0x392); (0x3d1, 0x3d1, 1, 0x398); (0x3d5, 0x3d5, 1, 0x3a6);
    (0x3d6, 0x3d6, 1, 0x3a0); (0x3d7, 0x3d7, 1, 0x3cf); (0x3d9, 0x3ef, 2, 0x3d8);
    (0x3f0, 0x3f0, 1, 0x39a); (0x3f1, 0x3f1, 1, 0x3a1); (0x3f2, 0x3f2, 1, 0x3f9);
    (0x3f3, 0x3f3, 1, 0x37f); (0x3f5, 0x3f5, 1, 0x395); (0x3f8, 0x3f8, 1, 0x3f7);
    (0x3fb, 0x3fb, 1, 0x3fa); (0x430, 0x44f, 1, 0x410); (0x450, 0x45f, 1, 0x400);
    (0x461, 0x481, 2, 0x460); (0x48b, 0x4bf, 2, 0x48a); (0x4c2, 0x4ce, 2, 0x4c1);
    (0x4cf, 0x4cf, 1, 0x4c0); (0x4d1, 0x52f, 2, 0x4d0); (0x561, 0x586, 1, 0x531);
    (0x10d0, 0x10fa, 1, 0x1c90); (0x10fd, 0x10ff, 1, 0x1cbd); (0x13f8, 0x13fd, 1, 0x13f0);
    (0x1c80, 0x1c80, 1, 0x412); (0x1c81, 0x1c81, 1, 0x414); (0x1c82, 0x1c82, 1, 0x41e);
    (0x1c83, 0x1c84, 1, 0x421); (0x1c85, 0x1c85, 1, 0x422); (0x1c86, 0x1c86, 1, 0x42a);
    (0x1c87, 0x1c87, 1, 0x462); (0x1c88, 0x1c88, 1, 0xa64a); (0x1d79, 0x1d79, 1, 0xa77d);
    (0x1d7d, 0x1d7d, 1, 0x2c63); (0x1d8e, 0x1d8e, 1, 0xa7c6); (0x1e01, 0x1e95, 2, 0x1e00);
    (0x1e9b, 0x1e9b, 1, 0x1e60); (0x1ea1, 0x1eff, 2, 0x1ea0); (0x1f00, 0x1f07, 1, 0x1f08);
    (0x1f10, 0x1f15, 1, 0x1f18); (0x1f20, 0x1f27, 1, 0x1f28); (0x1f30, 0x1f37, 1, 0x1f38);
    (0x1f40, 0x1f45, 1, 0x1f48); (0x1f51, 0x1f57, 2, 0x1f59); (0x1f60, 0x1f67, 1, 0x1f68);
    (0x1f70, 0x1f71, 1, 0x1fba); (0x1f72, 0x1f75, 1, 0x1fc8); (0x1f76, 0x1f77, 1, 0x1fda);
    (0x1f78, 0x1f79, 1, 0x1ff8); (0x1f7a, 0x1f7b, 1, 0x1fea); (0x1f7c, 0x1f7d, 1, 0x1ffa);
    (0x1fb0, 0x1fb1, 1, 0x1fb8); (0x1fbe, 0x1fbe, 1, 0x399); (0x1fd0, 0x1fd1, 1, 0x1fd8);
    (0x1fe0, 0x1fe1, 1, 0x1fe8); (0x1fe5, 0x1fe5, 1, 0x1fec); (0x214e, 0x214e, 1, 0x2132);
    (0x2170, 0x217f, 1, 0x2160); (0x2184, 0x2184, 1, 0x2183); (0x24d0, 0x24e9, 1, 0x24b6);
    (0x2c30, 0x2c5f, 1, 0x2c00); (0x2c61, 0x2c61, 1, 0x2c60); (0x2c65, 0x2c65, 1, 0x23a);
    (0x2c66, 0x2c66, 1, 0x23e); (0x2c68, 0x2c6c, 2, 0x2c67); (0x2c73, 0x2c73, 1, 0x2c72);
    (0x2c76, 0x2c76, 1, 0x2c75); (0x2c81, 0x2ce3, 2, 0x2c80); (0x2cec, 0x2cee, 2, 0x2ceb);
    (0x2cf3, 0x2cf3, 1, 0x2cf2); (0x2d00, 0x2d25, 1, 0x10a0); (0x2d27, 0x2d27, 1, 0x10c7);
    (0x2d2d, 0x2d2d, 1, 0x10cd); (0xa641, 0xa66d, 2, 0xa640); (0xa681, 0xa69b, 2, 0xa680);
    (0xa723, 0xa72f, 2, 0xa722); (0xa733, 0xa76f, 2, 0xa732); (0xa77a, 0xa77c, 2, 0xa779);
    (0xa77f, 0xa787, 2, 0xa77e); (0xa78c, 0xa78c, 1, 0xa78b); (0xa791, 0xa793, 2, 0xa790);
    (0xa794, 0xa794, 1, 0xa7c4); (0xa797, 0xa7a9, 2, 0xa796); (0xa7b5, 0xa7c3, 2, 0xa7b4);
    (0xa7c8, 0xa7ca, 2, 0xa7c7); (0xa7d1, 0xa7d1, 1, 0xa7d0); (0xa7d7, 0xa7d9, 2, 0xa7d6);
    (0xa7f6, 0xa7f6, 1, 0xa7f5); (0xab53, 0xab53, 1, 0xa7b3); (0xab70, 0xabbf, 1, 0x13a0);
    (0xff41, 0xff5a, 1, 0xff21); (0x10428, 0x1044f, 1, 0x10400);
    (0x104d8, 0x104fb, 1, 0x104b0); (0x10597, 0x105a1, 1, 0x10570);
    (0x105a3, 0x105b1, 1, 0x1057c); (0x105b3, 0x105b9, 1, 0x1058c);
    (0x105bb, 0x105bc, 1, 0x10594); (0x10cc0, 0x10cf2, 1, 0x10c80);
    (0x118c0, 0x118df, 1, 0x118a0); (0x16e60, 0x16e7f, 1, 0x16e40);
    (0x1e922, 0x1e943, 1, 0x1e900)
  ].

(** Code points whose full uppercase mapping is not a single code point. *)
Definition upper_special : list (N * list N) :=
  [
    (0xdf, [0x53; 0x53]); (0x149, [0x2bc; 0x4e]); (0x1f0, [0x4a; 0x30c]);
    (0x390, [0x399; 0x308; 0x301]); (0x3b0, [0x3a5; 0x308; 0x301]); (0x587, [0x535; 0x552]);
    (0x1e96, [0x48; 0x331]); (0x1e97, [0x54; 0x308]); (0x1e98, [0x57; 0x30a]);
    (0x1e99, [0x59; 0x30a]); (0x1e9a, [0x41; 0x2be]); (0x1f50, [0x3a5; 0x313]);
    (0x1f52, [0x3a5; 0x313; 0x300]); (0x1f54, [0x3a5; 0x313; 0x301]);
    (0x1f56, [0x3a5; 0x313; 0x342]); (0x1f80, [0x1f08; 0x399]); (0x1f81, [0x1f09; 0x399]);
    (0x1f82, [0x1f0a; 0x399]); (0x1f83, [0x1f0b; 0x399]); (0x1f84, [0x1f0c; 0x399]);
    (0x1f85, [0x1f0d; 0x399]); (0x1f86, [0x1f0e; 0x399]); (0x1f87, [0x1f0f; 0x399]);
    (0x1f88, [0x1f08; 0x399]); (0x1f89, [0x1f09; 0x399]); (0x1f8a, [0x1f0a; 0x399]);
    (0x1f8b, [0x1f0b; 0x399]); (0x1f8c, [0x1f0c; 0x399]); (0x1f8d, [0x1f0d; 0x399]);
    (0x1f8e, [0x1f0e; 0x399]); (0x1f8f, [0x1f0f; 0x399]); (0x1f90, [0x1f28; 0x399]);
    (0x1f91, [0x1f29; 0x399]); (0x1f92, [0x1f2a; 0x399]); (0x1f93, [0x1f2b; 0x399]);
    (0x1f94, [0x1f2c; 0x399]); (0x1f95, [0x1f2d; 0x399]); (0x1f96, [0x1f2e; 0x399]);
    (0x1f97, [0x1f2f; 0x399]); (0x1f98, [0x1f28; 0x399]); (0x1f99, [0x1f29; 0x399]);
    (0x1f9a, [0x1f2a; 0x399]); (0x1f9b, [0x1f2b; 0x399]); (0x1f9c, [0x1f2c; 0x399]);
    (0x1f9d, [0x1f2d; 0x399]); (0x1f9e, [0x1f2e; 0x399]); (0x1f9f, [0x1f2f; 0x399]);
    (0x1fa0, [0x1f68; 0x399]); (0x1fa1, [0x1f69; 0x399]); (0x1fa2, [0x1f6a; 0x399]);
    (0x1fa3, [0x1f6b; 0x399]); (0x1fa4, [0x1f6c; 0x399]); (0x1fa5, [0x1f6d; 0x399]);
    (0x1fa6, [0x1f6e; 0x399]); (0x1fa7, [0x1f6f; 0x399]); (0x1fa8, [0x1f68; 0x399]);
    (0x1fa9, [0x1f69; 0x399]); (0x1faa, [0x1f6a; 0x399]); (0x1fab, [0x1f6b; 0x399]);
    (0x1fac, [0x1f6c; 0x399]); (0x1fad, [0x1f6d; 0x399]); (0x1fae, [0x1f6e; 0x399]);
    (0x1faf, [0x1f6f; 0x399]); (0x1fb2, [0x1fba; 0x399]); (0x1fb3, [0x391; 0x399]);
    (0x1fb4, [0x386; 0x399]); (0x1fb6, [0x391; 0x342]); (0x1fb7, [0x391; 0x342; 0x399]);
    (0x1fbc, [0x391; 0x399]); (0x1fc2, [0x1fca; 0x399]); (0x1fc3, [0x397; 0x399]);
    (0x1fc4, [0x389; 0x399]); (0x1fc6, [0x397; 0x342]); (0x1fc7, [0x397; 0x342; 0x399]);
    (0x1fcc, [0x397; 0x399]); (0x1fd2, [0x399; 0x308; 0x300]); (0x1fd3, [0x399; 0x308; 0x301]);
    (0x1fd6, [0x399; 0x342]); (0x1fd7, [0x399; 0x308; 0x342]); (0x1fe2, [0x3a5; 0x308; 0x300]);
    (0x1fe3, [0x3a5; 0x308; 0x301]); (0x1fe4, [0x3a1; 0x313]); (0x1fe6, [0x3a5; 0x342]);
    (0x1fe7, [0x3a5; 0x308; 0x342]); (0x1ff2, [0x1ffa; 0x399]); (0x1ff3, [0x3a9; 0x399]);
    (0x1ff4, [0x38f; 0x399]); (0x1ff6, [0x3a9; 0x342]); (0x1ff7, [0x3a9; 0x342; 0x399]);
    (0x1ffc, [0x3a9; 0x399]); (0xfb00, [0x46; 0x46]); (0xfb01, [0x46; 0x49]);
    (0xfb02, [0x46; 0x4c]); (0xfb03, [0x46; 0x46; 0x49]); (0xfb04, [0x46; 0x46; 0x4c]);
    (0xfb05, [0x53; 0x54]); (0xfb06, [0x53; 0x54]); (0xfb13, [0x544; 0x546]);
    (0xfb14, [0x544; 0x535]); (0xfb15, [0x544; 0x53b]); (0xfb16, [0x54e; 0x546]);
    (0xfb17, [0x544; 0x53d])
  ].

(** The Cased property, as inclusive ranges. *)
Definition cased_table : list (N * N) :=
  [
    (0x41, 0x5a); (0x61, 0x7a); (0xaa, 0xaa); (0xb5, 0xb5); (0xba, 0xba); (0xc0, 0xd6);
    (0xd8, 0xf6); (0xf8, 0x1ba); (0x1bc, 0x1bf); (0x1c4, 0x293); (0x295, 0x2b8);
    (0x2c0, 0x2c1); (0x2e0, 0x2e4); (0x345, 0x345); (0x370, 0x373); (0x376, 0x377);
    (0x37a, 0x37d); (0x37f, 0x37f); (0x386, 0x386); (0x388, 0x38a); (0x38c, 0x38c);
    (0x38e, 0x3a1); (0x3a3, 0x3f5); (0x3f7, 0x481); (0x48a, 0x52f); (0x531, 0x556);
    (0x560, 0x588); (0x10a0, 0x10c5); (0x10c7, 0x10c7); (0x10cd, 0x10cd); (0x10d0, 0x10fa);
    (0x10fd, 0x10ff); (0x13a0, 0x13f5); (0x13f8, 0x13fd); (0x1c80, 0x1c88); (0x1c90, 0x1cba);
    (0x1cbd, 0x1cbf); (0x1d00, 0x1dbf); (0x1e00, 0x1f15); (0x1f18, 0x1f1d); (0x1f20, 0x1f45);
    (0x1f48, 0x1f4d); (0x1f50, 0x1f57); (0x1f59, 0x1f59); (0x1f5b, 0x1f5b); (0x1f5d, 0x1f5d);
    (0x1f5f, 0x1f7d); (0x1f80, 0x1fb4); (0x1fb6, 0x1fbc); (0x1fbe, 0x1fbe); (0x1fc2, 0x1fc4);
    (0x1fc6, 0x1fcc); (0x1fd0, 0x1fd3); (0x1fd6, 0x1fdb); (0x1fe0, 0x1fec); (0x1ff2, 0x1ff4);
    (0x1ff6, 0x1ffc); (0x2071, 0x2071); (0x207f, 0x207f); (0x2090, 0x209c); (0x2102, 0x2102);
    (0x2107, 0x2107); (0x210a, 0x2113); (0x2115, 0x2115); (0x2119, 0x211d); (0x2124, 0x2124);
    (0x2126, 0x2126); (0x2128, 0x2128); (0x212a, 0x212d); (0x212f, 0x2134); (0x2139, 0x2139);
    (0x213c, 0x213f); (0x2145, 0x2149); (0x214e, 0x214e); (0x2160, 0x217f); (0x2183, 0x2184);
    (0x24b6, 0x24e9); (0x2c00, 0x2ce4); (0x2ceb, 0x2cee); (0x2cf2, 0x2cf3); (0x2d00, 0x2d25);
    (0x2d27, 0x2d27); (0x2d2d, 0x2d2d); (0xa640, 0xa66d); (0xa680, 0xa69d); (0xa722, 0xa787);
    (0xa78b, 0xa78e); (0xa790, 0xa7ca); (0xa7d0, 0xa7d1); (0xa7d3, 0xa7d3); (0xa7d5, 0xa7d9);
    (0xa7f5, 0xa7f6); (0xa7f8, 0xa7fa); (0xab30, 0xab5a); (0xab5c, 0xab68); (0xab70, 0xabbf);
    (0xfb00, 0xfb06); (0xfb13, 0xfb17); (0xff21, 0xff3a); (0xff41, 0xff5a); (0x10400, 0x1044f);
    (0x104b0, 0x104d3); (0x104d8, 0x104fb); (0x10570, 0x1057a); (0x1057c, 0x1058a);
    (0x1058c, 0x10592); (0x10594, 0x10595); (0x10597, 0x105a1); (0x105a3, 0x105b1);
    (0x105b3, 0x105b9); (0x105bb, 0x105bc); (0x10780, 0x10780); (0x10783, 0x10785);
    (0x10787, 0x107b0); (0x107b2, 0x107ba); (0x10c80, 0x10cb2); (0x10cc0, 0x10cf2);
    (0x118a0, 0x118df); (0x16e40, 0x16e7f); (0x1d400, 0x1d454); (0x1d456, 0x1d49c);
    (0x1d49e, 0x1d49f); (0x1d4a2, 0x1d4a2); (0x1d4a5, 0x1d4a6); (0x1d4a9, 0x1d4ac);
    (0x1d4ae, 0x1d4b9); (0x1d4bb, 0x1d4bb); (0x1d4bd, 0x1d4c3); (0x1d4c5, 0x1d505);
    (0x1d507, 0x1d50a); (0x1d50d, 0x1d514); (0x1d516, 0x1d51c); (0x1d51e, 0x1d539);
    (0x1d53b, 0x1d53e); (0x1d540, 0x1d544); (0x1d546, 0x1d546); (0x1d54a, 0x1d550);
    (0x1d552, 0x1d6a5); (0x1d6a8, 0x1d6c0); (0x1d6c2, 0x1d6da); (0x1d6dc, 0x1d6fa);
    (0x1d6fc, 0x1d714); (0x1d716, 0x1d734); (0x1d736, 0x1d74e); (0x1d750, 0x1d76e);
    (0x1d770, 0x1d788); (0x1d78a, 0x1d7a8); (0x1d7aa, 0x1d7c2); (0x1d7c4, 0x1d7cb);
    (0x1df00, 0x1df09); (0x1df0b, 0x1df1e); (0x1e900, 0x1e943); (0x1f130, 0x1f149);
    (0x1f150, 0x1f169); (0x1f170, 0x1f189)
  ].

(** The Case_Ignorable property, as inclusive ranges. *)
Definition case_ignorable_table : list (N * N) :=
  [
    (0x27, 0x27); (0x2e, 0x2e); (0x3a, 0x3a); (0x5e, 0x5e); (0x60, 0x60); (0xa8, 0xa8);
    (0xad, 0xad); (0xaf, 0xaf); (0xb4, 0xb4); (0xb7, 0xb8); (0x2b0, 0x36f); (0x374, 0x375);
    (0x37a, 0x37a); (0x384, 0x385); (0x387, 0x387); (0x483, 0x489); (0x559, 0x559);
    (0x55f, 0x55f); (0x591, 0x5bd); (0x5bf, 0x5bf); (0x5c1, 0x5c2); (0x5c4, 0x5c5);
    (0x5c7, 0x5c7); (0x5f4, 0x5f4); (0x600, 0x605); (0x610, 0x61a); (0x61c, 0x61c);
    (0x640, 0x640); (0x64b, 0x65f); (0x670, 0x670); (0x6d6, 0x6dd); (0x6df, 0x6e8);
    (0x6ea, 0x6ed); (0x70f, 0x70f); (0x711, 0x711); (0x730, 0x74a); (0x7a6, 0x7b0);
    (0x7eb, 0x7f5); (0x7fa, 0x7fa); (0x7fd, 0x7fd); (0x816, 0x82d); (0x859, 0x85b);
    (0x888, 0x888); (0x890, 0x891); (0x898, 0x89f); (0x8c9, 0x902); (0x93a, 0x93a);
    (0x93c, 0x93c); (0x941, 0x948); (0x94d, 0x94d); (0x951, 0x957); (0x962, 0x963);
    (0x971, 0x971); (0x981, 0x981); (0x9bc, 0x9bc); (0x9c1, 0x9c4); (0x9cd, 0x9cd);
    (0x9e2, 0x9e3); (0x9fe, 0x9fe); (0xa01, 0xa02); (0xa3c, 0xa3c); (0xa41, 0xa42);
    (0xa47, 0xa48); (0xa4b, 0xa4d); (0xa51, 0xa51); (0xa70, 0xa71); (0xa75, 0xa75);
    (0xa81, 0xa82); (0xabc, 0xabc); (0xac1, 0xac5); (0xac7, 0xac8); (0xacd, 0xacd);
    (0xae2, 0xae3); (0xafa, 0xaff); (0xb01, 0xb01); (0xb3c, 0xb3c); (0xb3f, 0xb3f);
    (0xb41, 0xb44); (0xb4d, 0xb4d); (0xb55, 0xb56); (0xb62, 0xb63); (0xb82, 0xb82);
    (0xbc0, 0xbc0); (0xbcd, 0xbcd); (0xc00, 0xc00); (0xc04, 0xc04); (0xc3c, 0xc3c);
    (0xc3e, 0xc40); (0xc46, 0xc48); (0xc4a, 0xc4d); (0xc55, 0xc56); (0xc62, 0xc63);
    (0xc81, 0xc81); (0xcbc, 0xcbc); (0xcbf, 0xcbf); (0xcc6, 0xcc6); (0xccc, 0xccd);
    (0xce2, 0xce3); (0xd00, 0xd01); (0xd3b, 0xd3c); (0xd41, 0xd44); (0xd4d, 0xd4d);
    (0xd62, 0xd63); (0xd81, 0xd81); (0xdca, 0xdca); (0xdd2, 0xdd4); (0xdd6, 0xdd6);
    (0xe31, 0xe31); (0xe34, 0xe3a); (0xe46, 0xe4e); (0xeb1, 0xeb1); (0xeb4, 0xebc);
    (0xec6, 0xec6); (0xec8, 0xecd); (0xf18, 0xf19); (0xf35, 0xf35); (0xf37, 0xf37);
    (0xf39, 0xf39); (0xf71, 0xf7e); (0xf80, 0xf84); (0xf86, 0xf87); (0xf8d, 0xf97);
    (0xf99, 0xfbc); (0xfc6, 0xfc6); (0x102d, 0x1030); (0x1032, 0x1037); (0x1039, 0x103a);
    (0x103d, 0x103e); (0x1058, 0x1059); (0x105e, 0x1060); (0x1071, 0x1074); (0x1082, 0x1082);
    (0x1085, 0x1086); (0x108d, 0x108d); (0x109d, 0x109d); (0x10fc, 0x10fc); (0x135d, 0x135f);
    (0x1712, 0x1714); (0x1732, 0x1733); (0x1752, 0x1753); (0x1772, 0x1773); (0x17b4, 0x17b5);
    (0x17b7, 0x17bd); (0x17c6, 0x17c6); (0x17c9, 0x17d3); (0x17d7, 0x17d7); (0x17dd, 0x17dd);
    (0x180b, 0x180f); (0x1843, 0x1843); (0x1885, 0x1886); (0x18a9, 0x18a9); (0x1920, 0x1922);
    (0x1927, 0x1928); (0x1932, 0x1932); (0x1939, 0x193b); (0x1a17, 0x1a18); (0x1a1b, 0x1a1b);
    (0x1a56, 0x1a56); (0x1a58, 0x1a5e); (0x1a60, 0x1a60); (0x1a62, 0x1a62); (0x1a65, 0x1a6c);
    (0x1a73, 0x1a7c); (0x1a7f, 0x1a7f); (0x1aa7, 0x1aa7); (0x1ab0, 0x1ace); (0x1b00, 0x1b03);
    (0x1b34, 0x1b34); (0x1b36, 0x1b3a); (0x1b3c, 0x1b3c); (0x1b42, 0x1b42); (0x1b6b, 0x1b73);
    (0x1b80, 0x1b81); (0x1ba2, 0x1ba5); (0x1ba8, 0x1ba9); (0x1bab, 0x1bad); (0x1be6, 0x1be6);
    (0x1be8, 0x1be9); (0x1bed, 0x1bed); (0x1bef, 0x1bf1); (0x1c2c, 0x1c33); (0x1c36, 0x1c37);
    (0x1c78, 0x1c7d); (0x1cd0, 0x1cd2); (0x1cd4, 0x1ce0); (0x1ce2, 0x1ce8); (0x1ced, 0x1ced);
    (0x1cf4, 0x1cf4); (0x1cf8, 0x1cf9); (0x1d2c, 0x1d6a); (0x1d78, 0x1d78); (0x1d9b, 0x1dff);
    (0x1fbd, 0x1fbd); (0x1fbf, 0x1fc1); (0x1fcd, 0x1fcf); (0x1fdd, 0x1fdf); (0x1fed, 0x1fef);
    (0x1ffd, 0x1ffe); (0x200b, 0x200f); (0x2018, 0x2019); (0x2024, 0x2024); (0x2027, 0x2027);
    (0x202a, 0x202e); (0x2060, 0x2064); (0x2066, 0x206f); (0x2071, 0x2071); (0x207f, 0x207f);
    (0x2090, 0x209c); (0x20d0, 0x20f0); (0x2c7c, 0x2c7d); (0x2cef, 0x2cf1); (0x2d6f, 0x2d6f);
    (0x2d7f, 0x2d7f); (0x2de0, 0x2dff); (0x2e2f, 0x2e2f); (0x3005, 0x3005); (0x302a, 0x302d);
    (0x3031, 0x3035); (0x303b, 0x303b); (0x3099, 0x309e); (0x30fc, 0x30fe); (0xa015, 0xa015);
    (0xa4f8, 0xa4fd); (0xa60c, 0xa60c); (0xa66f, 0xa672); (0xa674, 0xa67d); (0xa67f, 0xa67f);
    (0xa69c, 0xa69f); (0xa6f0, 0xa6f1); (0xa700, 0xa721); (0xa770, 0xa770); (0xa788, 0xa78a);
    (0xa7f2, 0xa7f4); (0xa7f8, 0xa7f9); (0xa802, 0xa802); (0xa806, 0xa806); (0xa80b, 0xa80b);
    (0xa825, 0xa826); (0xa82c, 0xa82c); (0xa8c4, 0xa8c5); (0xa8e0, 0xa8f1); (0xa8ff, 0xa8ff);
    (0xa926, 0xa92d); (0xa947, 0xa951); (0xa980, 0xa982); (0xa9b3, 0xa9b3); (0xa9b6, 0xa9b9);
    (0xa9bc, 0xa9bd); (0xa9cf, 0xa9cf); (0xa9e5, 0xa9e6); (0xaa29, 0xaa2e); (0xaa31, 0xaa32);
    (0xaa35, 0xaa36); (0xaa43, 0xaa43); (0xaa4c, 0xaa4c); (0xaa70, 0xaa70); (0xaa7c, 0xaa7c);
    (0xaab0, 0xaab0); (0xaab2, 0xaab4); (0xaab7, 0xaab8); (0xaabe, 0xaabf); (0xaac1, 0xaac1);
    (0xaadd, 0xaadd); (0xaaec, 0xaaed); (0xaaf3, 0xaaf4); (0xaaf6, 0xaaf6); (0xab5b, 0xab5f);
    (0xab69, 0xab6b); (0xabe5, 0xabe5); (0xabe8, 0xabe8); (0xabed, 0xabed); (0xfb1e, 0xfb1e);
    (0xfbb2, 0xfbc2); (0xfe00, 0xfe0f); (0xfe13, 0xfe13); (0xfe20, 0xfe2f); (0xfe52, 0xfe52);
    (0xfe55, 0xfe55); (0xfeff, 0xfeff); (0xff07, 0xff07); (0xff0e, 0xff0e); (0xff1a, 0xff1a);
    (0xff3e, 0xff3e); (0xff40, 0xff40); (0xff70, 0xff70); (0xff9e, 0xff9f); (0xffe3, 0xffe3);
    (0xfff9, 0xfffb); (0x101fd, 0x101fd); (0x102e0, 0x102e0); (0x10376, 0x1037a);
    (0x10780, 0x10785); (0x10787, 0x107b0); (0x107b2, 0x107ba); (0x10a01, 0x10a03);
    (0x10a05, 0x10a06); (0x10a0c, 0x10a0f); (0x10a38, 0x10a3a); (0x10a3f, 0x10a3f);
    (0x10ae5, 0x10ae6); (0x10d24, 0x10d27); (0x10eab, 0x10eac); (0x10f46, 0x10f50);
    (0x10f82, 0x10f85); (0x11001, 0x11001); (0x11038, 0x11046); (0x11070, 0x11070);
    (0x11073, 0x11074); (0x1107f, 0x11081); (0x110b3, 0x110b6); (0x110b9, 0x110ba);
    (0x110bd, 0x110bd); (0x110c2, 0x110c2); (0x110cd, 0x110cd); (0x11100, 0x11102);
    (0x11127, 0x1112b); (0x1112d, 0x11134); (0x11173, 0x11173); (0x11180, 0x11181);
    (0x111b6, 0x111be); (0x111c9, 0x111cc); (0x111cf, 0x111cf); (0x1122f, 0x11231);
    (0x11234, 0x11234); (0x11236, 0x11237); (0x1123e, 0x1123e); (0x112df, 0x112df);
    (0x112e3, 0x112ea); (0x11300, 0x11301); (0x1133b, 0x1133c); (0x11340, 0x11340);
    (0x11366, 0x1136c); (0x11370, 0x11374); (0x11438, 0x1143f); (0x11442, 0x11444);
    (0x11446, 0x11446); (0x1145e, 0x1145e); (0x114b3, 0x114b8); (0x114ba, 0x114ba);
    (0x114bf, 0x114c0); (0x114c2, 0x114c3); (0x115b2, 0x115b5); (0x115bc, 0x115bd);
    (0x115bf, 0x115c0); (0x115dc, 0x115dd); (0x11633, 0x1163a); (0x1163d, 0x1163d);
    (0x1163f, 0x11640); (0x116ab, 0x116ab); (0x116ad, 0x116ad); (0x116b0, 0x116b5);
    (0x116b7, 0x116b7); (0x1171d, 0x1171f); (0x11722, 0x11725); (0x11727, 0x1172b);
    (0x1182f, 0x11837); (0x11839, 0x1183a); (0x1193b, 0x1193c); (0x1193e, 0x1193e);
    (0x11943, 0x11943); (0x119d4, 0x119d7); (0x119da, 0x119db); (0x119e0, 0x119e0);
    (0x11a01, 0x11a0a); (0x11a33, 0x11a38); (0x11a3b, 0x11a3e); (0x11a47, 0x11a47);
    (0x11a51, 0x11a56); (0x11a59, 0x11a5b); (0x11a8a, 0x11a96); (0x11a98, 0x11a99);
    (0x11c30, 0x11c36); (0x11c38, 0x11c3d); (0x11c3f, 0x11c3f); (0x11c92, 0x11ca7);
    (0x11caa, 0x11cb0); (0x11cb2, 0x11cb3); (0x11cb5, 0x11cb6); (0x11d31, 0x11d36);
    (0x11d3a, 0x11d3a); (0x11d3c, 0x11d3d); (0x11d3f, 0x11d45); (0x11d47, 0x11d47);
    (0x11d90, 0x11d91); (0x11d95, 0x11d95); (0x11d97, 0x11d97); (0x11ef3, 0x11ef4);
    (0x13430, 0x13438); (0x16af0, 0x16af4); (0x16b30, 0x16b36); (0x16b40, 0x16b43);
    (0x16f4f, 0x16f4f); (0x16f8f, 0x16f9f); (0x16fe0, 0x16fe1); (0x16fe3, 0x16fe4);
    (0x1aff0, 0x1aff3); (0x1aff5, 0x1affb); (0x1affd, 0x1affe); (0x1bc9d, 0x1bc9e);
    (0x1bca0, 0x1bca3); (0x1cf00, 0x1cf2d); (0x1cf30, 0x1cf46); (0x1d167, 0x1d169);
    (0x1d173, 0x1d182); (0x1d185, 0x1d18b); (0x1d1aa, 0x1d1ad); (0x1d242, 0x1d244);
    (0x1da00, 0x1da36); (0x1da3b, 0x1da6c); (0x1da75, 0x1da75); (0x1da84, 0x1da84);
    (0x1da9b, 0x1da9f); (0x1daa1, 0x1daaf); (0x1e000, 0x1e006); (0x1e008, 0x1e018);
    (0x1e01b, 0x1e021); (0x1e023, 0x1e024); (0x1e026, 0x1e02a); (0x1e130, 0x1e13d);
    (0x1e2ae, 0x1e2ae); (0x1e2ec, 0x1e2ef); (0x1e8d0, 0x1e8d6); (0x1e944, 0x1e94b);
    (0x1f3fb, 0x1f3ff); (0xe0001, 0xe0001); (0xe0020, 0xe007f); (0xe0100, 0xe01ef)
  ].
Fixpoint in_ranges (c : N) (t : list (N * N)) : bool :=
  match t with
  | [] => false
  | (lo, hi) :: t' => ((lo <=? c) && (c <=? hi)) || in_ranges c t'
  end.

Fixpoint simple_mapping (c : N) (t : list (N * N * N * N)) : option N :=
  match t with
  | [] => None
  | (lo, hi, step, tlo) :: t' =>
      if (lo <=? c) && (c <=? hi) && ((c - lo) mod step =? 0)
      then Some (tlo + (c - lo))
      else simple_mapping c t'
  end.

Fixpoint special_mapping (c : N) (t : list (N * list N)) : option (list N) :=
  match t with
  | [] => None
  | (k, m) :: t' => if c =? k then Some m else special_mapping c t'
  end.

Definition full_mapping (special : list (N * list N))
    (simple : list (N * N * N * N)) (c : N) : list N :=
  match special_mapping c special with
  | Some m => m
  | None =>
      match simple_mapping c simple with
      | Some d => [d]
      | None => [c]
      end
  end.

(** [Py_UNICODE_ISSPACE] *)
Definition IsWhitespace (c : N) : bool := in_ranges c whitespace_table.
(** [_PyUnicode_IsCased] *)
Definition IsCased (c : N) : bool := in_ranges c cased_table.
(** [_PyUnicode_IsCaseIgnorable] *)
Definition IsCaseIgnorable (c : N) : bool := in_ranges c case_ignorable_table.
(** [_PyUnicode_ToLowerFull] *)
Definition ToLowerFull (c : N) : list N := full_mapping lower_special lower_table c.
(** [_PyUnicode_ToUpperFull] *)
Definition ToUpperFull (c : N) : list N := full_mapping upper_special upper_table c.

End Unicode.

(** ** Python strings *)

(** ASCII literals, for writing examples. *)
Fixpoint of_string (s : string) : str :=
  match s with
  | EmptyString => []
  | String a s' => N_of_ascii a :: of_string s'
  end.

Definition isspace_char (c : char) : bool := Unicode.IsWhitespace c.

(** The characters after (or, on a reversed prefix, before) a position,
    skipping those that are case-ignorable: the two scanning loops of
    [handle_capital_sigma]. *)
Fixpoint skip_case_ignorable (s : str) : option char :=
  match s with
  | [] => None
  | c :: s' => if Unicode.IsCaseIgnorable c then skip_case_ignorable s' else Some c
  end.

(** [handle_capital_sigma] of [Objects/unicodeobject.c].  [before] holds the
    characters preceding the sigma, nearest first; [after] those following. *)
Definition handle_capital_sigma (before after : str) : char :=
  let final_sigma :=
    match skip_case_ignorable before with
    | Some c => Unicode.IsCased c
    | None => false
    end in
  let final_sigma :=
    if final_sigma then
      match skip_case_ignorable after with
      | Some c => negb (Unicode.IsCased c)
      | None => true
      end
    else false in
  if final_sigma then 0x3C2%N else 0x3C3%N.

Definition lower_ucs4 (before : str) (c : char) (after : str) : str :=
  if (c =? 0x3A3)%N then [handle_capital_sigma before after]
  else Unicode.ToLowerFull c.

Fixpoint do_lower (before : str) (s : str) : str :=
  match s with
  | [] => []
  | c :: after => lower_ucs4 before c after ++ do_lower (c :: before) after
  end.

(** [str.lower()] *)
Definition lower (s : str) : str := do_lower [] s.

(** [str.upper()] *)
Definition upper (s : str) : str := flat_map Unicode.ToUpperFull s.

Fixpoint lstrip (s : str) : str :=
  match s with
  | [] => []
  | c :: s' => if isspace_char c then lstrip s' else s
  end.

Definition rstrip (s : str) : str := rev (lstrip (rev s)).

(** [str.strip()] *)
Definition strip (s : str) : str := rstrip (lstrip s).

(** [str.split()] with no separator: the maximal runs of non-whitespace
    characters.  [tok] is the run being read, last character first. *)
Fixpoint split_from (tok : str) (s : str) : list str :=
  match s with
  | [] => match tok with [] => [] | _ => [rev tok] end
  | c :: s' =>
      if isspace_char c then
        match tok with
        | [] => split_from [] s'
        | _ => rev tok :: split_from [] s'
        end
      else split_from (c :: tok) s'
  end.

Definition split (s : str) : list str := split_from [] s.

(** [''.join(parts)] *)
Definition join (parts : list str) : str := List.concat parts.

(** Comparison of strings: code point by code point. *)
Fixpoint str_eqb (a b : str) : bool :=
  match a, b with
  | [], [] => true
  | x :: a', y :: b' => (x =? y)%N && str_eqb a' b'
  | _, _ => false
  end.

Fixpoint str_ltb (a b : str) : bool :=
  match a, b with
  | _, [] => false
  | [], _ :: _ => true
  | x :: a', y :: b' => (x <? y)%N || ((x =? y)%N && str_ltb a' b')
  end.

(** The strict order used by [sorted]. *)
Definition str_lt (a b : str) : Prop := str_ltb a b = true.

(** ** Exceptions *)

Inductive exn : Type :=
  | IndexError.

Inductive result (A : Type) : Type :=
  | Ok (a : A)
  | Raise (e : exn).

Arguments Ok {A} a.
Arguments Raise {A} e.

Definition bind {A B : Type} (m : result A) (k : A -> result B) : result B :=
  match m with
  | Ok a => k a
  | Raise e => Raise e
  end.

Notation "x <- m ;; k" := (bind m (fun x => k))
  (at level 61, m at next level, right associativity).

(** ** Sequences *)

Definition len {A : Type} (l : list A) : Z := Z.of_nat (List.length l).

(** [l[i]]: a negative index counts from the end; an index out of range
    raises [IndexError]. *)
Definition getitem {A : Type} (l : list A) (i : Z) : result A :=
  let i := if (i <? 0)%Z then (i + len l)%Z else i in
  if (i <? 0)%Z then Raise IndexError
  else
    match nth_error l (Z.to_nat i) with
    | Some x => Ok x
    | None => Raise IndexError
    end.

(** Indexing a string yields a string of length one. *)
Definition str_getitem (s : str) (i : Z) : result str :=
  c <- getitem s i ;; Ok [c].

(** [range(lo, hi)] *)
Definition range (lo hi : Z) : list Z :=
  map (fun k => (lo + Z.of_nat k)%Z) (seq 0 (Z.to_nat (hi - lo))).

(** [itertools.combinations(l, r)]: the [r]-element subsequences of [l], in
    lexicographic order of their positions. *)
Fixpoint combinations {A : Type} (r : nat) (l : list A) : list (list A) :=
  match r with
  | O => [[]]
  | S r' =>
      (fix pick (l : list A) : list (list A) :=
         match l with
         | [] => []
         | x :: l' => map (cons x) (combinations r' l') ++ pick l'
         end) l
  end.

(** [for x in l: body], the loop state threaded through the iterations. *)
Fixpoint for_each {A S : Type} (l : list A) (body : A -> S -> result S) (s : S)
    : result S :=
  match l with
  | [] => Ok s
  | x :: l' => s' <- body x s ;; for_each l' body s'
  end.

(** [[f(x) for x in l]] *)
Fixpoint comprehension {A B : Type} (f : A -> result B) (l : list A)
    : result (list B) :=
  match l with
  | [] => Ok []
  | x :: l' => y <- f x ;; ys <- comprehension f l' ;; Ok (y :: ys)
  end.

(** ** Sets of strings *)

(** A [set] of strings is a duplicate-free list; the order of its elements
    stands for the iteration order, which no caller here depends on. *)
Definition pyset := list str.

Definition set_new : pyset := [].

Fixpoint set_mem (x : str) (u : pyset) : bool :=
  match u with
  | [] => false
  | y :: u' => str_eqb x y || set_mem x u'
  end.

(** [u.add(x)] *)
Definition set_add (x : str) (u : pyset) : pyset :=
  if set_mem x u then u else u ++ [x].

(** [sorted(l)]: a stable sort by [<]. *)
Fixpoint insert_sorted (x : str) (l : list str) : list str :=
  match l with
  | [] => [x]
  | y :: l' => if str_ltb y x then y :: insert_sorted x l' else x :: l
  end.

Fixpoint sorted (l : list str) : list str :=
  match l with
  | [] => []
  | x :: l' => insert_sorted x (sorted l')
  end.

(** ** xl2usernames.py *)

(** Lines 29-31: every single name part. *)
Definition single_names (parts : list str) (usernames : pyset) : result pyset :=
  for_each parts (fun part usernames => Ok (set_add part usernames)) usernames.

(** Lines 33-37: both orders of every pair of positions [i < j]. *)
Definition two_part_combinations (parts : list str) (usernames : pyset)
    : result pyset :=
  for_each (range 0 (len parts)) (fun i usernames =>
    for_each (range (i + 1) (len parts)) (fun j usernames =>
      pi <- getitem parts i ;;
      pj <- getitem parts j ;;
      let usernames := set_add (pi ++ pj) usernames in
      pj <- getitem parts j ;;
      pi <- getitem parts i ;;
      Ok (set_add (pj ++ pi) usernames)) usernames) usernames.

(** Lines 39-42: the parts at every combination of three positions. *)
Definition three_part_combinations (parts : list str) (usernames : pyset)
    : result pyset :=
  if (3 <=? len parts)%Z then
    for_each (combinations 3 (range 0 (len parts))) (fun combo usernames =>
      picked <- comprehension (fun i => getitem parts i) combo ;;
      Ok (set_add (join picked) usernames)) usernames
  else Ok usernames.

(** Lines 44-47: first initial + last name, first name + last initial. *)
Definition first_letter_combinations (parts : list str) (usernames : pyset)
    : result pyset :=
  if (2 <=? len parts)%Z then
    first <- getitem parts 0 ;;
    initial <- str_getitem first 0 ;;
    last <- getitem parts (-1) ;;
    let usernames := set_add (initial ++ last) usernames in
    first <- getitem parts 0 ;;
    last <- getitem parts (-1) ;;
    initial <- str_getitem last 0 ;;
    Ok (set_add (first ++ initial) usernames)
  else Ok usernames.

(** Lines 49-51: first name + middle initial + last name. *)
Definition middle_initial_combination (parts : list str) (usernames : pyset)
    : result pyset :=
  if (3 <=? len parts)%Z then
    first <- getitem parts 0 ;;
    middle <- getitem parts 1 ;;
    initial <- str_getitem middle 0 ;;
    last <- getitem parts (-1) ;;
    Ok (set_add ((first ++ initial) ++ last) usernames)
  else Ok usernames.

(** Line 22: the cleaned name parts. *)
Definition name_parts (full_name : str) : list str :=
  split (strip (lower full_name)).

Definition generate_username_combinations (full_name : str) : result (list str) :=
  let parts := name_parts full_name in
  match parts with
  | [] => Ok []
  | _ :: _ =>
      let usernames := set_new in
      usernames <- single_names parts usernames ;;
      usernames <- two_part_combinations parts usernames ;;
      usernames <- three_part_combinations parts usernames ;;
      usernames <- first_letter_combinations parts usernames ;;
      usernames <- middle_initial_combination parts usernames ;;
      let usernames := set_add (join parts) usernames in
      Ok (sorted usernames)
  end.

(** ** Vocabulary of the statements *)

(** [adds u u' P k]: the set [u'] is [u] together with the strings
    satisfying [P], obtained by at most [k] insertions. *)
Definition adds (u u' : pyset) (P : str -> Prop) (k : nat) : Prop :=
  (NoDup u -> NoDup u') /\
  (forall x, In x u' <-> In x u \/ P x) /\
  (List.length u' <= List.length u + k)%nat.

(** The binomial coefficient, by Pascal's rule. *)
Fixpoint choose (n r : nat) : nat :=
  match n, r with
  | _, O => 1
  | O, S _ => 0
  | S n', S r' => choose n' r' + choose n' r
  end.

(** [increasing lo hi c]: the positions in [c] increase strictly and lie in
    [lo, hi). *)
Fixpoint increasing (lo hi : nat) (c : list nat) : Prop :=
  match c with
  | [] => True
  | i :: c' => (lo <= i < hi)%nat /\ increasing (S i) hi c'
  end.

(** The first character of a string, as a string. *)
Definition first_character (s : str) : str := firstn 1 s.

(** What one pair of positions contributes: both orders. *)
Definition pair_at (parts : list str) (i j : nat) (x : str) : Prop :=
  exists pi pj,
    nth_error parts i = Some pi /\ nth_error parts j = Some pj /\
    (x = pi ++ pj \/ x = pj ++ pi).

(** What one triple of positions contributes: the original order. *)
Definition triple_at (parts : list str) (i j k : nat) (x : str) : Prop :=
  exists pi pj pk,
    nth_error parts i = Some pi /\ nth_error parts j = Some pj /\
    nth_error parts k = Some pk /\ x = pi ++ pj ++ pk.

(** What the initial-based rules contribute. *)
Definition first_letter_at (parts : list str) (x : str) : Prop :=
  exists first last,
    nth_error parts 0 = Some first /\
    nth_error parts (List.length parts - 1) = Some last /\
    (x = first_character first ++ last \/ x = first ++ first_character last).

Definition middle_initial_at (parts : list str) (x : str) : Prop :=
  exists first middle last,
    nth_error parts 0 = Some first /\ nth_error parts 1 = Some middle /\
    nth_error parts (List.length parts - 1) = Some last /\
    x = (first ++ first_character middle) ++ last.

(** Everything the blocks add, in the order of the source. *)
Definition candidate (parts : list str) (x : str) : Prop :=
  In x parts \/
  (exists i j, (i < j)%nat /\ pair_at parts i j x) \/
  (exists i j k, (i < j < k)%nat /\ triple_at parts i j k x) \/
  ((2 <= List.length parts)%nat /\ first_letter_at parts x) \/
  ((3 <= List.length parts)%nat /\ middle_initial_at parts x) \/
  x = join parts.

(** The number of insertions the blocks perform at most. *)
Definition insertions (n : nat) : nat :=
  (n + n * (n - 1) + choose n 3 + 4)%nat.

(** A string made of whitespace only (the empty string included). *)
Definition all_whitespace (s : str) : bool := forallb isspace_char s.

(** A string without any whitespace character. *)
Definition whitespace_free (s : str) : bool :=
  forallb (fun c => negb (isspace_char c)) s.

(** [ranges_disjoint lo hi t]: no range of [t] meets [lo, hi]. *)
Definition ranges_disjoint (lo hi : N) (t : list (N * N)) : bool :=
  forallb (fun r => ((hi <? fst r) || (snd r <? lo))%N) t.

(** A string of ASCII characters. *)
Definition is_ascii (s : str) : bool := forallb (fun c => (c <? 128)%N) s.

(** ** The reference algorithm of the specification *)

(** Section 4.1, step 1: lowercase the input, trim outer whitespace, split
    on whitespace runs. *)
Definition normalize (full_name : str) : list str :=
  split (strip (lower full_name)).

(** Section 4.1, steps 2 to 7: the rules that put a candidate in the
    result set. *)
Inductive reference_rule (parts : list str) : str -> Prop :=
  | rule_single (p : str) :
      In p parts -> reference_rule parts p
  | rule_pair (i j : nat) (pi pj : str) :
      (i < j)%nat -> nth_error parts i = Some pi -> nth_error parts j = Some pj ->
      reference_rule parts (pi ++ pj)
  | rule_pair_swapped (i j : nat) (pi pj : str) :
      (i < j)%nat -> nth_error parts i = Some pi -> nth_error parts j = Some pj ->
      reference_rule parts (pj ++ pi)
  | rule_triple (i j k : nat) (pi pj pk : str) :
      (3 <= List.length parts)%nat -> (i < j)%nat -> (j < k)%nat ->
      nth_error parts i = Some pi -> nth_error parts j = Some pj ->
      nth_error parts k = Some pk ->
      reference_rule parts (pi ++ pj ++ pk)
  | rule_initial_last (first last : str) :
      (2 <= List.length parts)%nat ->
      nth_error parts 0 = Some first ->
      nth_error parts (List.length parts - 1) = Some last ->
      reference_rule parts (first_character first ++ last)
  | rule_first_initial (first last : str) :
      (2 <= List.length parts)%nat ->
      nth_error parts 0 = Some first ->
      nth_error parts (List.length parts - 1) = Some last ->
      reference_rule parts (first ++ first_character last)
  | rule_middle_initial (first middle last : str) :
      (3 <= List.length parts)%nat ->
      nth_error parts 0 = Some first -> nth_error parts 1 = Some middle ->
      nth_error parts (List.length parts - 1) = Some last ->
      reference_rule parts (first ++ first_character middle ++ last)
  | rule_full_name :
      reference_rule parts (List.concat parts).

(** The candidate set of the reference algorithm: empty when there are no
    parts, else what the rules produce. *)
Definition reference_candidates (full_name : str) (x : str) : Prop :=
  normalize full_name <> [] /\ reference_rule (normalize full_name) x.

(** The number of distinct name parts. *)
Definition distinct_count (parts : list str) : nat :=
  List.length (nodup (list_eq_dec N.eq_dec) parts).

(** ** xl2usernames.py: the body of [extract_names_from_excel] *)

(** How a statement of the [try] block ends: normally, by raising an
    exception, or by [sys.exit(status)]. *)
Inductive flow (A : Type) : Type :=
  | Next (a : A)
  | Throw (e : exn)
  | SystemExit (status : Z).

Arguments Next {A} a.
Arguments Throw {A} e.
Arguments SystemExit {A} status.

Definition of_result {A : Type} (r : result A) : flow A :=
  match r with
  | Ok a => Next a
  | Raise e => Throw e
  end.



(** [x in l], for a list of strings. *)
Definition contains (x : str) (l : list str) : bool := existsb (str_eqb x) l.

(** Line 84. *)
Definition possible_columns : list str :=
  map of_string ["name"; "full name"; "fullname"; "full_name"; "employee"; "user"]%string.

(** Lines 86-89: the first column whose lower-cased label is a known
    header, if there is one. *)
Fixpoint auto_detect (columns : list str) : option str :=
  match columns with
  | [] => None
  | col :: columns' =>
      if contains (lower col) possible_columns then Some col
      else auto_detect columns'
  end.

(** Lines 72-94: the column holding the names.  [columns] are the labels of
    the data frame; [column_name] is the [-c] option, [None] when absent.
    An empty string is falsy and selects auto-detection as [None] does. *)
Definition select_name_column (columns : list str) (column_name : option str)
    : flow str :=
  match column_name with
  | Some ((_ :: _) as name) =>
      if contains name columns then Next name else SystemExit 1
  | _ =>
      match auto_detect columns with
      | Some col => Next col
      | None => of_result (getitem columns 0)
      end
  end.

(** Line 105: the cell texts that stand for a missing value. *)
Definition placeholders : list str := map of_string ["nan"; "none"; ""]%string.

(** [u.update(l)] *)
Definition set_update (u : pyset) (l : list str) : pyset :=
  fold_left (fun u x => set_add x u) l u.

(** Lines 98-111: the usernames of all rows.  [cells] holds, row by row,
    the text [str(row[name_column])]. *)
Definition collect_usernames (cells : list str) : result pyset :=
  for_each cells (fun cell all_usernames =>
    let name := strip cell in
    if negb (match name with [] => true | _ => false end) &&
       negb (contains (lower name) placeholders)
    then
      usernames <- generate_username_combinations name ;;
      Ok (set_update all_usernames usernames)
    else Ok all_usernames) set_new.

Definition newline : char := 10%N.

(** Lines 120-122: the text written to the output file, one [f.write] per
    username. *)
Definition write_usernames (all_usernames : pyset) : str :=
  fold_left (fun file username => file ++ (username ++ [newline]))
    (sorted all_usernames) [].


(** ** Vocabulary of the further properties *)

(** A well-formed username: non-empty and free of whitespace. *)
Definition wellformed (x : str) : Prop := x <> [] /\ whitespace_free x = true.

(** A cell the row loop passes over: blank, or the word "nan" or "none" in
    any letter case, whatever whitespace surrounds it. *)
Definition skipped (cell : str) : Prop :=
  all_whitespace cell = true \/
  lower (strip cell) = of_string "nan" \/
  lower (strip cell) = of_string "none".

(** A label that auto-detection recognises. *)
Definition known_header (col : str) : Prop := In (lower col) possible_columns.

(** What one row contributes to the set. *)
Definition row_usernames (cell : str) (x : str) : Prop :=
  ~ skipped cell /\
  exists l, generate_username_combinations cell = Ok l /\ In x l.

(** The pairs (code point, image) that one entry of a simple mapping table
    stands for. *)
Definition expand_entry (e : N * N * N * N) : list (N * N) :=
  match e with
  | (lo, hi, step, tlo) =>
      map (fun k => (lo + N.of_nat k * step, tlo + N.of_nat k * step)%N)
        (seq 0 (S (N.to_nat ((hi - lo) / step))))
  end.

(** A character that lower-casing leaves alone, wherever it stands. *)
Definition lower_stable (d : char) : bool :=
  negb (d =? 0x3A3)%N &&
  match Unicode.ToLowerFull d with
  | [d'] => (d' =? d)%N
  | _ => false
  end.

(** * Properties of the runtime model *)

Section StringOrder.

Lemma str_eqb_eq (a b : str) : str_eqb a b = true <-> a = b.
Proof.
  revert b; induction a as [|x a IH]; intros [|y b]; simpl;
    try (split; [discriminate | congruence]); try tauto.
  rewrite andb_true_iff, N.eqb_eq, IH.
  split; [intros [-> ->]; reflexivity | intros E; inversion E; auto].
Qed.

Lemma str_eqb_refl (a : str) : str_eqb a a = true.
Proof. apply str_eqb_eq; reflexivity. Qed.

Lemma str_ltb_irrefl (a : str) : str_ltb a a = false.
Proof.
  induction a as [|x a IH]; simpl; [reflexivity|].
  rewrite N.ltb_irrefl, N.eqb_refl, IH; reflexivity.
Qed.

Lemma str_ltb_trans (a b c : str) :
  str_ltb a b = true -> str_ltb b c = true -> str_ltb a c = true.
Proof.
  revert b c; induction a as [|x a IH]; intros [|y b] [|z c]; simpl;
    try discriminate; auto.
  rewrite !orb_true_iff, !andb_true_iff, !N.ltb_lt, !N.eqb_eq.
  intros [H1 | [-> H1]] [H2 | [-> H2]].
  - left; lia.
  - left; assumption.
  - left; assumption.
  - right; split; [reflexivity | eapply IH; eassumption].
Qed.

(** The order is total: two strings neither of which is below the other are
    the same string. *)
Lemma str_ltb_antisym (a b : str) :
  str_ltb a b = false -> str_ltb b a = false -> a = b.
Proof.
  revert b; induction a as [|x a IH]; intros [|y b]; simpl;
    try discriminate; auto.
  rewrite !orb_false_iff, !andb_false_iff, !N.ltb_ge, !N.eqb_neq.
  intros [H1 H1'] [H2 H2'].
  assert (x = y) by lia; subst y.
  f_equal; apply IH.
  - destruct H1' as [?|?]; [congruence | assumption].
  - destruct H2' as [?|?]; [congruence | assumption].
Qed.

End StringOrder.

Section Sets.

Lemma set_mem_In (x : str) (u : pyset) : set_mem x u = true <-> In x u.
Proof.
  induction u as [|y u IH]; simpl; [split; [discriminate | tauto]|].
  rewrite orb_true_iff, str_eqb_eq, IH; intuition congruence.
Qed.

Lemma set_add_In (x y : str) (u : pyset) :
  In y (set_add x u) <-> In y u \/ y = x.
Proof.
  unfold set_add; destruct (set_mem x u) eqn:E.
  - apply set_mem_In in E; intuition congruence.
  - rewrite in_app_iff; simpl; intuition congruence.
Qed.

Lemma set_add_NoDup (x : str) (u : pyset) : NoDup u -> NoDup (set_add x u).
Proof.
  intros H; unfold set_add; destruct (set_mem x u) eqn:E; [assumption|].
  assert (~ In x u) by (rewrite <- set_mem_In; congruence).
  apply NoDup_rev in H. rewrite <- (rev_involutive (u ++ [x])).
  apply NoDup_rev. rewrite rev_app_distr; simpl.
  constructor; [rewrite <- in_rev; assumption | assumption].
Qed.

Lemma set_add_length (x : str) (u : pyset) :
  (List.length (set_add x u) <= List.length u + 1)%nat.
Proof.
  unfold set_add; destruct (set_mem x u); [lia|].
  rewrite length_app; simpl; lia.
Qed.

End Sets.

Section Sorting.

Lemma insert_sorted_perm (x : str) (l : list str) :
  Permutation (insert_sorted x l) (x :: l).
Proof.
  induction l as [|y l IH]; simpl; [reflexivity|].
  destruct (str_ltb y x); [|reflexivity].
  rewrite IH; apply perm_swap.
Qed.

Lemma sorted_perm (l : list str) : Permutation (sorted l) l.
Proof.
  induction l as [|x l IH]; simpl; [reflexivity|].
  rewrite insert_sorted_perm; constructor; assumption.
Qed.

Lemma sorted_In (x : str) (l : list str) : In x (sorted l) <-> In x l.
Proof.
  split; apply Permutation_in; [|symmetry]; apply sorted_perm.
Qed.

Lemma sorted_length (l : list str) : List.length (sorted l) = List.length l.
Proof. apply Permutation_length, sorted_perm. Qed.

Lemma sorted_NoDup (l : list str) : NoDup l -> NoDup (sorted l).
Proof.
  apply Permutation_NoDup; symmetry; apply sorted_perm.
Qed.

Lemma insert_sorted_strict (x : str) (l : list str) :
  ~ In x l -> StronglySorted str_lt l -> StronglySorted str_lt (insert_sorted x l).
Proof.
  induction l as [|y l IH]; simpl; intros Hx Hs.
  - repeat constructor.
  - inversion Hs as [|? ? Hs' Hy]; subst.
    destruct (str_ltb y x) eqn:E.
    + constructor; [apply IH; tauto|].
      rewrite Forall_forall; intros z Hz.
      apply (Permutation_in _ (insert_sorted_perm x l)) in Hz.
      destruct Hz as [<- | Hz]; [exact E|].
      rewrite Forall_forall in Hy; apply Hy; assumption.
    + assert (Hxy : str_lt x y).
      { unfold str_lt; destruct (str_ltb x y) eqn:E'; [reflexivity|].
        exfalso; apply Hx; left; apply str_ltb_antisym; assumption. }
      constructor; [assumption|].
      constructor; [assumption|].
      rewrite Forall_forall in Hy |- *; intros z Hz.
      eapply str_ltb_trans; [exact Hxy | apply Hy; assumption].
Qed.

Lemma sorted_strict (l : list str) : NoDup l -> StronglySorted str_lt (sorted l).
Proof.
  induction 1 as [|x l Hx Hl IH]; simpl; [constructor|].
  apply insert_sorted_strict; [rewrite sorted_In|]; assumption.
Qed.

(** A strictly increasing list is determined by its elements, so the result
    of [sorted] does not depend on the order in which a set is iterated. *)
Lemma strictly_sorted_unique (l l' : list str) :
  StronglySorted str_lt l -> StronglySorted str_lt l' ->
  (forall x, In x l <-> In x l') -> l = l'.
Proof.
  intros Hl; revert l'; induction Hl as [|x l Hl IH Hx]; intros l' Hl' Heq.
  - destruct l' as [|y l']; [reflexivity|].
    exfalso; apply (proj2 (Heq y)); left; reflexivity.
  - destruct Hl' as [|y l' Hl' Hy].
    + exfalso; apply (proj1 (Heq x)); left; reflexivity.
    + rewrite Forall_forall in Hx, Hy.
      assert (x = y).
      { destruct (proj1 (Heq x) (or_introl eq_refl)) as [E | Hin]; [auto|].
        destruct (proj2 (Heq y) (or_introl eq_refl)) as [E | Hin']; [auto|].
        pose proof (str_ltb_trans _ _ _ (Hx _ Hin') (Hy _ Hin)) as C.
        rewrite str_ltb_irrefl in C; discriminate. }
      subst y; f_equal; apply IH; [assumption|].
      intros z; split; intros Hz.
      * destruct (proj1 (Heq z) (or_intror Hz)) as [E | ?]; [|assumption].
        subst z; apply Hx in Hz; unfold str_lt in Hz.
        rewrite str_ltb_irrefl in Hz; discriminate.
      * destruct (proj2 (Heq z) (or_intror Hz)) as [E | ?]; [|assumption].
        subst z; apply Hy in Hz; unfold str_lt in Hz.
        rewrite str_ltb_irrefl in Hz; discriminate.
Qed.

Lemma sorted_iteration_order (u u' : pyset) :
  NoDup u -> NoDup u' -> (forall x, In x u <-> In x u') -> sorted u = sorted u'.
Proof.
  intros Hu Hu' Heq.
  apply strictly_sorted_unique; try (apply sorted_strict; assumption).
  intros x; rewrite !sorted_In; apply Heq.
Qed.

End Sorting.

Section Sequences.

Context {A : Type}.

Lemma len_nonneg (l : list A) : (0 <= len l)%Z.
Proof. unfold len; lia. Qed.

(** An index within bounds reads the element at that position. *)
Lemma getitem_nth (l : list A) (i : nat) (x : A) :
  nth_error l i = Some x -> getitem l (Z.of_nat i) = Ok x.
Proof.
  intros H; unfold getitem.
  destruct (Z.of_nat i <? 0)%Z eqn:E; [apply Z.ltb_lt in E; lia|].
  rewrite E, Nat2Z.id, H; reflexivity.
Qed.

Lemma getitem_first (x : A) (l : list A) : getitem (x :: l) 0 = Ok x.
Proof. reflexivity. Qed.

(** Index [-1] reads the last element of a non-empty sequence. *)
Lemma getitem_last (l : list A) (x : A) : getitem (l ++ [x]) (-1) = Ok x.
Proof.
  unfold getitem; change (-1 <? 0)%Z with true; cbv iota.
  replace (-1 + len (l ++ [x]))%Z with (Z.of_nat (List.length l))
    by (unfold len; rewrite length_app; cbn [List.length]; lia).
  destruct (Z.of_nat (List.length l) <? 0)%Z eqn:E; [apply Z.ltb_lt in E; lia|].
  rewrite Nat2Z.id, nth_error_app2, Nat.sub_diag by lia; reflexivity.
Qed.

Lemma getitem_last_error (l : list A) (x : A) :
  nth_error l (List.length l - 1) = Some x -> getitem l (-1) = Ok x.
Proof.
  intros H.
  destruct (exists_last (l := l)) as (l' & y & ->).
  { intros ->; discriminate. }
  rewrite getitem_last.
  rewrite length_app in H; simpl in H.
  rewrite nth_error_app2 in H by lia.
  replace (List.length l' + 1 - 1 - List.length l')%nat with 0%nat in H by lia.
  simpl in H; congruence.
Qed.

End Sequences.

Section Ranges.

Lemma range_nat (n : nat) :
  range 0 (Z.of_nat n) = map Z.of_nat (seq 0 n).
Proof.
  unfold range; rewrite Z.sub_0_r, Nat2Z.id; reflexivity.
Qed.

Lemma range_from_nat (i n : nat) :
  range (Z.of_nat i + 1) (Z.of_nat n) = map Z.of_nat (seq (S i) (n - S i)).
Proof.
  unfold range.
  replace (Z.to_nat (Z.of_nat n - (Z.of_nat i + 1))) with (n - S i)%nat by lia.
  replace (S i) with (S i + 0)%nat at 2 by lia.
  generalize 0%nat; induction (n - S i)%nat as [|m IH]; intros k; simpl.
  - reflexivity.
  - f_equal; [lia|].
    rewrite (IH (S k)); do 2 f_equal; lia.
Qed.

End Ranges.

(** * Loops that add to a set *)

Section Adds.

Lemma adds_refl (u : pyset) : adds u u (fun _ => False) 0.
Proof.
  repeat split; try tauto; lia.
Qed.

Lemma adds_add (x : str) (u : pyset) : adds u (set_add x u) (fun y => y = x) 1.
Proof.
  repeat split.
  - apply set_add_NoDup.
  - apply set_add_In.
  - apply set_add_In.
  - apply set_add_length.
Qed.

Lemma adds_trans (u u' u'' : pyset) (P Q : str -> Prop) (k m : nat) :
  adds u u' P k -> adds u' u'' Q m -> adds u u'' (fun x => P x \/ Q x) (k + m).
Proof.
  intros (N1 & I1 & L1) (N2 & I2 & L2); repeat split.
  - auto.
  - intros H; apply I2 in H; rewrite I1 in H; tauto.
  - intros H; apply I2; rewrite I1; tauto.
  - lia.
Qed.

Lemma adds_weaken (u u' : pyset) (P Q : str -> Prop) (k m : nat) :
  adds u u' P k -> (forall x, P x <-> Q x) -> (k <= m)%nat -> adds u u' Q m.
Proof.
  intros (N1 & I1 & L1) HPQ Hkm; repeat split.
  - assumption.
  - intros H; apply I1 in H; rewrite <- HPQ; assumption.
  - intros H; apply I1; rewrite HPQ; assumption.
  - lia.
Qed.

Lemma for_each_map {A B S : Type} (f : A -> B) (l : list A)
    (body : B -> S -> result S) (s : S) :
  for_each (map f l) body s = for_each l (fun a => body (f a)) s.
Proof.
  revert s; induction l as [|a l IH]; intros s; simpl; [reflexivity|].
  destruct (body (f a) s); simpl; auto.
Qed.

(** A loop whose every iteration adds to the set adds the union of what
    its iterations add, and never raises when no iteration does. *)
Lemma for_each_adds {A : Type} (l : list A) (body : A -> pyset -> result pyset)
    (P : A -> str -> Prop) (k : A -> nat) :
  (forall a u, In a l -> exists u', body a u = Ok u' /\ adds u u' (P a) (k a)) ->
  forall u, exists u',
    for_each l body u = Ok u' /\
    adds u u' (fun x => exists a, In a l /\ P a x) (list_sum (map k l)).
Proof.
  induction l as [|a l IH]; intros Hbody u; simpl.
  - exists u; split; [reflexivity|].
    eapply adds_weaken; [apply adds_refl | | lia].
    intros x; split; [tauto | intros (a & [] & _)].
  - destruct (Hbody a u (or_introl eq_refl)) as (u1 & E1 & A1).
    destruct (IH (fun b v Hb => Hbody b v (or_intror Hb)) u1) as (u2 & E2 & A2).
    exists u2; rewrite E1; simpl; split; [exact E2|].
    eapply adds_weaken; [eapply adds_trans; eassumption | | lia].
    intros x; split.
    + intros [H | (b & Hb & H)]; [exists a | exists b]; auto.
    + intros (b & [<- | Hb] & H); [left | right; exists b]; auto.
Qed.

End Adds.

(** * Combinations *)

Section Combinations.

Lemma combinations_cons {A : Type} (r : nat) (x : A) (l : list A) :
  combinations (S r) (x :: l) =
  map (cons x) (combinations r l) ++ combinations (S r) l.
Proof. reflexivity. Qed.

Lemma combinations_map {A B : Type} (f : A -> B) (r : nat) (l : list A) :
  combinations r (map f l) = map (map f) (combinations r l).
Proof.
  revert l; induction r as [|r IH]; intros l; [reflexivity|].
  induction l as [|x l IHl]; [reflexivity|].
  cbn [map]; rewrite !combinations_cons, map_app, IHl, IH, !map_map.
  reflexivity.
Qed.

Lemma combinations_length {A : Type} (r : nat) (l : list A) :
  List.length (combinations r l) = choose (List.length l) r.
Proof.
  revert l; induction r as [|r IH]; intros l.
  - destruct l; reflexivity.
  - induction l as [|x l IHl]; [reflexivity|].
    rewrite combinations_cons, length_app, length_map, IH, IHl; reflexivity.
Qed.

Lemma increasing_weaken (lo lo' hi : nat) (c : list nat) :
  (lo' <= lo)%nat -> increasing lo hi c -> increasing lo' hi c.
Proof.
  destruct c as [|i c]; simpl; [tauto|]. intros ? [? ?]; split; [lia | assumption].
Qed.

(** [combinations(range(n), r)] lists exactly the strictly increasing
    sequences of [r] positions. *)
Lemma in_combinations_seq (r b a : nat) (c : list nat) :
  In c (combinations r (seq a b)) <->
  List.length c = r /\ increasing a (a + b) c.
Proof.
  revert b a c; induction r as [|r IH]; intros b a c.
  - destruct b; simpl; (split; [intros [<- | []]; simpl; auto|]);
      intros [H _]; destruct c; [auto | discriminate | auto | discriminate].
  - revert a; induction b as [|b IHb]; intros a.
    + simpl; split; [tauto|]. intros [H1 H2]; destruct c; [discriminate|].
      simpl in H2; lia.
    + cbn [seq]; rewrite combinations_cons, in_app_iff, in_map_iff, IHb.
      split.
      * intros [(c' & <- & H) | [H1 H2]].
        -- apply IH in H; destruct H as [H1 H2]; simpl; split; [lia|].
           split; [lia|]. replace (a + S b)%nat with (S a + b)%nat by lia; exact H2.
        -- split; [assumption|].
           replace (a + S b)%nat with (S a + b)%nat by lia.
           eapply increasing_weaken; [|exact H2]; lia.
      * intros [H1 H2]; destruct c as [|i c]; [discriminate|].
        simpl in H1, H2; destruct H2 as [Hi H2].
        replace (a + S b)%nat with (S a + b)%nat in * by lia.
        destruct (Nat.eq_dec i a) as [-> | Hne].
        -- left; exists c; split; [reflexivity|]. apply IH; split; [lia | assumption].
        -- right; split; [simpl; lia|]. simpl; split; [lia | assumption].
Qed.

Lemma choose_1 (n : nat) : choose n 1 = n.
Proof.
  induction n as [|n IH]; [reflexivity|]. cbn [choose]; rewrite IH.
  destruct n; simpl; lia.
Qed.

Lemma choose_2 (n : nat) : (2 * choose n 2 = n * (n - 1))%nat.
Proof.
  induction n as [|n IH]; [reflexivity|].
  cbn [choose]; rewrite choose_1.
  destruct n as [|n]; [reflexivity|].
  replace (S (S n) - 1)%nat with (S n) by lia.
  replace (S n - 1)%nat with n in IH by lia. nia.
Qed.

Lemma choose_3 (n : nat) : (6 * choose n 3 = n * (n - 1) * (n - 2))%nat.
Proof.
  induction n as [|n IH]; [reflexivity|].
  cbn [choose]. pose proof (choose_2 n) as H2.
  destruct n as [|[|n]]; [reflexivity | reflexivity |].
  replace (S (S (S n)) - 1)%nat with (S (S n)) by lia.
  replace (S (S (S n)) - 2)%nat with (S n) by lia.
  replace (S (S n) - 1)%nat with (S n) in * by lia.
  replace (S (S n) - 2)%nat with n in * by lia. nia.
Qed.

End Combinations.

(** * The blocks of [generate_username_combinations] *)

Section Blocks.

Variable parts : list str.
Let n := List.length parts.

Lemma nth_error_in_range (i : nat) :
  (i < n)%nat -> exists p, nth_error parts i = Some p.
Proof.
  intros H; destruct (nth_error parts i) as [p|] eqn:E; [eauto|].
  apply nth_error_None in E; unfold n in H; lia.
Qed.

Lemma nth_error_bound (i : nat) (p : str) :
  nth_error parts i = Some p -> (i < n)%nat.
Proof.
  intros H; apply nth_error_Some; congruence.
Qed.

Lemma list_sum_cons (x : nat) (l : list nat) :
  list_sum (x :: l) = (x + list_sum l)%nat.
Proof. reflexivity. Qed.

Lemma list_sum_const {A : Type} (c : nat) (l : list A) :
  list_sum (map (fun _ => c) l) = (List.length l * c)%nat.
Proof.
  induction l as [|a l IH]; simpl; [reflexivity | rewrite IH; lia].
Qed.

Lemma list_sum_pairs (a b : nat) :
  (a + b = n)%nat ->
  list_sum (map (fun i => 2 * (n - S i))%nat (seq a b)) = (b * (b - 1))%nat.
Proof.
  revert a; induction b as [|b IH]; intros a H; [reflexivity|].
  cbn [seq map]; rewrite list_sum_cons, (IH (S a)) by lia.
  replace (n - S a)%nat with b by lia.
  replace (S b - 1)%nat with b by lia.
  destruct b; simpl; lia.
Qed.

Lemma single_names_adds (u : pyset) :
  exists u', single_names parts u = Ok u' /\
             adds u u' (fun x => In x parts) n.
Proof.
  destruct (for_each_adds parts (fun part usernames => Ok (set_add part usernames))
              (fun a x => x = a) (fun _ => 1%nat)) with (u := u) as (u' & E & Ha).
  { intros a v _; eexists; split; [reflexivity | apply adds_add]. }
  exists u'; split; [exact E|].
  eapply adds_weaken; [exact Ha | | rewrite list_sum_const; unfold n; lia].
  intros x; split; [intros (a & Ha' & ->); assumption | intros H; eauto].
Qed.

Lemma two_part_inner_adds (i : nat) (u : pyset) :
  (i < n)%nat ->
  exists u',
    for_each (range (Z.of_nat i + 1) (len parts)) (fun j usernames =>
      pi <- getitem parts (Z.of_nat i) ;;
      pj <- getitem parts j ;;
      let usernames := set_add (pi ++ pj) usernames in
      pj <- getitem parts j ;;
      pi <- getitem parts (Z.of_nat i) ;;
      Ok (set_add (pj ++ pi) usernames)) u = Ok u' /\
    adds u u' (fun x => exists j, (i < j)%nat /\ pair_at parts i j x)
         (2 * (n - S i)).
Proof.
  intros Hi; unfold len; rewrite range_from_nat, for_each_map.
  destruct (nth_error_in_range i Hi) as (pi & Epi).
  match goal with |- exists u', for_each ?l ?b u = _ /\ _ =>
    destruct (for_each_adds l b (fun j x => pair_at parts i j x) (fun _ => 2%nat))
      with (u := u) as (u' & E & Ha)
  end.
  { intros j v Hj; apply in_seq in Hj.
    destruct (nth_error_in_range j) as (pj & Epj); [fold n; lia|].
    rewrite (getitem_nth _ _ _ Epi), (getitem_nth _ _ _ Epj); simpl.
    eexists; split; [reflexivity|].
    eapply adds_weaken;
      [eapply adds_trans; [apply adds_add | apply adds_add] | | lia].
    intros x; unfold pair_at; split.
    - intros H; exists pi, pj; tauto.
    - intros (pi' & pj' & E1 & E2 & H); rewrite Epi in E1; rewrite Epj in E2.
      inversion E1; inversion E2; subst; tauto. }
  exists u'; split; [exact E|].
  eapply adds_weaken; [exact Ha | |].
  - intros x; split.
    + intros (j & Hj & H); apply in_seq in Hj; exists j; split; [lia | assumption].
    + intros (j & Hj & H); exists j; split; [|assumption].
      apply in_seq. destruct H as (? & pj & _ & Epj & _).
      apply nth_error_bound in Epj; fold n; lia.
  - rewrite list_sum_const, length_seq; fold n; lia.
Qed.

Lemma two_part_combinations_adds (u : pyset) :
  exists u', two_part_combinations parts u = Ok u' /\
             adds u u' (fun x => exists i j, (i < j)%nat /\ pair_at parts i j x)
                  (n * (n - 1)).
Proof.
  unfold two_part_combinations, len at 1; rewrite range_nat, for_each_map.
  match goal with |- exists u', for_each ?l ?b u = _ /\ _ =>
    destruct (for_each_adds l b
                (fun i x => exists j, (i < j)%nat /\ pair_at parts i j x)
                (fun i => 2 * (n - S i))%nat)
      with (u := u) as (u' & E & Ha)
  end.
  { intros i v Hi; apply in_seq in Hi.
    apply two_part_inner_adds; fold n; lia. }
  exists u'; split; [exact E|].
  eapply adds_weaken; [exact Ha | |].
  - intros x; split.
    + intros (i & _ & j & Hij & H); eauto.
    + intros (i & j & Hij & H); exists i; split; [|eauto].
      apply in_seq. destruct H as (? & pj & _ & Epj & _).
      apply nth_error_bound in Epj; fold n; lia.
  - fold n; rewrite (list_sum_pairs 0 n) by lia; lia.
Qed.

Lemma three_part_combinations_adds (u : pyset) :
  exists u', three_part_combinations parts u = Ok u' /\
             adds u u'
               (fun x => exists i j k, (i < j < k)%nat /\ triple_at parts i j k x)
               (choose n 3).
Proof.
  unfold three_part_combinations.
  destruct (3 <=? len parts)%Z eqn:G.
  - unfold len; rewrite range_nat, combinations_map, for_each_map.
    match goal with |- exists u', for_each ?l ?b u = _ /\ _ =>
      destruct (for_each_adds l b
                  (fun c x => exists i j k, c = [i; j; k] /\ triple_at parts i j k x)
                  (fun _ => 1%nat))
        with (u := u) as (u' & E & Ha)
    end.
    { intros c v Hc; apply in_combinations_seq in Hc; destruct Hc as [Hl Hc].
      destruct c as [|i [|j [|k [|? ?]]]]; try discriminate.
      simpl in Hc; destruct Hc as (Hi & Hj & Hk & _).
      destruct (nth_error_in_range i) as (pi & Epi); [fold n; lia|].
      destruct (nth_error_in_range j) as (pj & Epj); [fold n; lia|].
      destruct (nth_error_in_range k) as (pk & Epk); [fold n; lia|].
      cbn [map comprehension].
      rewrite (getitem_nth _ _ _ Epi), (getitem_nth _ _ _ Epj),
        (getitem_nth _ _ _ Epk); simpl.
      eexists; split; [reflexivity|].
      eapply adds_weaken; [apply adds_add | | lia].
      intros x; rewrite app_nil_r; split.
      - intros ->; exists i, j, k; split; [reflexivity|].
        exists pi, pj, pk; auto.
      - intros (i' & j' & k' & Ec & pi' & pj' & pk' & E1 & E2 & E3 & ->).
        inversion Ec; subst i' j' k'; congruence. }
    exists u'; split; [exact E|].
    eapply adds_weaken; [exact Ha | |].
    + intros x; split.
      * intros (c & Hc & i & j & k & -> & H).
        apply in_combinations_seq in Hc; simpl in Hc.
        exists i, j, k; split; [lia | assumption].
      * intros (i & j & k & Hijk & H); exists [i; j; k]; split; [|eauto].
        apply in_combinations_seq; simpl.
        destruct H as (? & ? & pk & _ & _ & Epk & _).
        apply nth_error_bound in Epk; fold n; lia.
    + rewrite list_sum_const, combinations_length, length_seq; fold n; lia.
  - exists u; split; [reflexivity|].
    eapply adds_weaken; [apply adds_refl | | lia].
    intros x; split; [tauto|].
    intros (i & j & k & Hijk & ? & ? & pk & _ & _ & Epk & _).
    apply nth_error_bound in Epk; apply Z.leb_gt in G; unfold len in G; fold n in G.
    lia.
Qed.

Hypothesis parts_nonempty : Forall (fun p => p <> []) parts.

Lemma part_nonempty (i : nat) (p : str) : nth_error parts i = Some p -> p <> [].
Proof.
  intros H; apply nth_error_In in H.
  rewrite Forall_forall in parts_nonempty; auto.
Qed.

Lemma str_getitem_first (p : str) :
  p <> [] -> str_getitem p 0 = Ok (first_character p).
Proof.
  destruct p as [|c p]; [congruence | reflexivity].
Qed.

Lemma first_letter_combinations_adds (u : pyset) :
  exists u', first_letter_combinations parts u = Ok u' /\
             adds u u' (fun x => (2 <= n)%nat /\ first_letter_at parts x) 2.
Proof.
  unfold first_letter_combinations.
  destruct (2 <=? len parts)%Z eqn:G.
  - apply Z.leb_le in G; unfold len in G; fold n in G.
    destruct (nth_error_in_range 0) as (p0 & E0); [lia|].
    destruct (nth_error_in_range (n - 1)) as (pl & El); [lia|].
    change 0%Z with (Z.of_nat 0) at 1 3.
    rewrite (getitem_nth _ _ _ E0), (getitem_last_error _ _ El).
    cbn [bind].
    rewrite !str_getitem_first by (eapply part_nonempty; eassumption).
    cbn [bind].
    eexists; split; [reflexivity|].
    eapply adds_weaken;
      [eapply adds_trans; [apply adds_add | apply adds_add] | | lia].
    intros x; unfold first_letter_at; fold n; split.
    + intros H; split; [lia|]. exists p0, pl; tauto.
    + intros (_ & p0' & pl' & E0' & El' & H).
      rewrite E0 in E0'; rewrite El in El'.
      inversion E0'; inversion El'; subst; tauto.
  - exists u; split; [reflexivity|].
    eapply adds_weaken; [apply adds_refl | | lia].
    apply Z.leb_gt in G; unfold len in G; fold n in G.
    intros x; split; [tauto | intros [? _]; lia].
Qed.

Lemma middle_initial_combination_adds (u : pyset) :
  exists u', middle_initial_combination parts u = Ok u' /\
             adds u u' (fun x => (3 <= n)%nat /\ middle_initial_at parts x) 1.
Proof.
  unfold middle_initial_combination.
  destruct (3 <=? len parts)%Z eqn:G.
  - apply Z.leb_le in G; unfold len in G; fold n in G.
    destruct (nth_error_in_range 0) as (p0 & E0); [lia|].
    destruct (nth_error_in_range 1) as (p1 & E1); [lia|].
    destruct (nth_error_in_range (n - 1)) as (pl & El); [lia|].
    change 0%Z with (Z.of_nat 0) at 1; change 1%Z with (Z.of_nat 1).
    rewrite (getitem_nth _ _ _ E0), (getitem_nth _ _ _ E1),
      (getitem_last_error _ _ El).
    cbn [bind].
    rewrite str_getitem_first by (eapply part_nonempty; eassumption).
    cbn [bind].
    eexists; split; [reflexivity|].
    eapply adds_weaken; [apply adds_add | | lia].
    intros x; unfold middle_initial_at; fold n; split.
    + intros ->; split; [lia|]. exists p0, p1, pl; auto.
    + intros (_ & p0' & p1' & pl' & E0' & E1' & El' & ->).
      rewrite E0 in E0'; rewrite E1 in E1'; rewrite El in El'.
      inversion E0'; inversion E1'; inversion El'; subst; reflexivity.
  - exists u; split; [reflexivity|].
    eapply adds_weaken; [apply adds_refl | | lia].
    apply Z.leb_gt in G; unfold len in G; fold n in G.
    intros x; split; [tauto | intros [? _]; lia].
Qed.

(** The blocks in sequence, from the empty set: no block raises, and the
    set built holds the candidates and nothing else. *)
Lemma blocks_build_candidates :
  exists u,
    (usernames <- single_names parts set_new ;;
     usernames <- two_part_combinations parts usernames ;;
     usernames <- three_part_combinations parts usernames ;;
     usernames <- first_letter_combinations parts usernames ;;
     usernames <- middle_initial_combination parts usernames ;;
     let usernames := set_add (join parts) usernames in
     Ok (sorted usernames)) = Ok (sorted u) /\
    NoDup u /\
    (forall x, In x u <-> candidate parts x) /\
    (List.length u <= insertions n)%nat.
Proof.
  destruct (single_names_adds set_new) as (u1 & E1 & A1).
  destruct (two_part_combinations_adds u1) as (u2 & E2 & A2).
  destruct (three_part_combinations_adds u2) as (u3 & E3 & A3).
  destruct (first_letter_combinations_adds u3) as (u4 & E4 & A4).
  destruct (middle_initial_combination_adds u4) as (u5 & E5 & A5).
  pose proof (adds_add (join parts) u5) as A6.
  rewrite E1; cbn [bind]; rewrite E2; cbn [bind]; rewrite E3; cbn [bind].
  rewrite E4; cbn [bind]; rewrite E5; cbn [bind].
  exists (set_add (join parts) u5); split; [reflexivity|].
  pose proof (adds_trans _ _ _ _ _ _ _ A1
               (adds_trans _ _ _ _ _ _ _ A2
                 (adds_trans _ _ _ _ _ _ _ A3
                   (adds_trans _ _ _ _ _ _ _ A4
                     (adds_trans _ _ _ _ _ _ _ A5 A6))))) as (Hn & Hi & Hl).
  split; [apply Hn; constructor|].
  split.
  - intros x; rewrite Hi; unfold candidate, set_new; fold n; simpl; tauto.
  - unfold insertions; simpl in Hl; lia.
Qed.

End Blocks.

(** * Splitting and stripping *)

Section Splitting.

Lemma whitespace_free_rev (s : str) : whitespace_free (rev s) = whitespace_free s.
Proof.
  unfold whitespace_free; induction s as [|c s IH]; [reflexivity|].
  simpl; rewrite forallb_app, IH; simpl; rewrite andb_true_r, andb_comm.
  reflexivity.
Qed.

(** A run of whitespace never produces a zero-length token, and no token
    holds a whitespace character. *)
Lemma split_from_tokens (s tok : str) :
  whitespace_free tok = true ->
  Forall (fun t => t <> [] /\ whitespace_free t = true) (split_from tok s).
Proof.
  assert (Hrev : forall c t, whitespace_free (c :: t) = true ->
            rev (c :: t) <> [] /\ whitespace_free (rev (c :: t)) = true).
  { intros c t H; split; [|rewrite whitespace_free_rev; exact H].
    simpl; destruct (rev t); discriminate. }
  revert tok; induction s as [|c s IH]; intros tok Htok; simpl.
  - destruct tok; [constructor|]. constructor; [auto | constructor].
  - destruct (isspace_char c) eqn:E.
    + destruct tok; [apply IH; reflexivity|].
      constructor; [auto | apply IH; reflexivity].
    + apply IH; simpl; unfold whitespace_free in Htok. rewrite E; exact Htok.
Qed.

Lemma split_tokens (s : str) :
  Forall (fun t => t <> [] /\ whitespace_free t = true) (split s).
Proof. apply split_from_tokens; reflexivity. Qed.

Lemma split_from_nil (s tok : str) :
  split_from tok s = [] <-> tok = [] /\ all_whitespace s = true.
Proof.
  revert tok; induction s as [|c s IH]; intros tok; simpl.
  - destruct tok; [tauto|]. split; [discriminate | intros [? _]; discriminate].
  - destruct (isspace_char c) eqn:E; simpl.
    + destruct tok; [rewrite IH; tauto|].
      split; [discriminate | intros [? _]; discriminate].
    + rewrite IH; split; [intros [? _]; discriminate | intros [_ ?]; discriminate].
Qed.

Lemma split_nil (s : str) : split s = [] <-> all_whitespace s = true.
Proof. unfold split; rewrite split_from_nil; tauto. Qed.

(** Trailing whitespace ends the token being read and adds nothing. *)
Lemma split_from_app_whitespace (s w tok : str) :
  all_whitespace w = true -> split_from tok (s ++ w) = split_from tok s.
Proof.
  intros Hw; revert tok; induction s as [|c s IH]; intros tok; simpl.
  - destruct w as [|c w]; [reflexivity|].
    simpl in Hw |- *; apply andb_true_iff in Hw; destruct Hw as [-> Hw].
    assert (Hnil : split_from [] w = []) by (apply split_from_nil; auto).
    rewrite Hnil; destruct tok; reflexivity.
  - destruct (isspace_char c); [destruct tok|]; rewrite ?IH; reflexivity.
Qed.

(** Leading whitespace is skipped. *)
Lemma split_whitespace_app (w s : str) :
  all_whitespace w = true -> split (w ++ s) = split s.
Proof.
  induction w as [|c w IH]; intros Hw; [reflexivity|].
  simpl in Hw; apply andb_true_iff in Hw; destruct Hw as [Hc Hw].
  unfold split; simpl; rewrite Hc; apply IH; exact Hw.
Qed.

Lemma lstrip_prefix (s : str) :
  exists w, s = w ++ lstrip s /\ all_whitespace w = true.
Proof.
  induction s as [|c s (w & E & Hw)]; [exists []; auto|].
  simpl; destruct (isspace_char c) eqn:Hc.
  - exists (c :: w); simpl; rewrite Hc, Hw, <- E; auto.
  - exists []; auto.
Qed.

Lemma rstrip_suffix (s : str) :
  exists w, s = rstrip s ++ w /\ all_whitespace w = true.
Proof.
  destruct (lstrip_prefix (rev s)) as (w & E & Hw).
  exists (rev w); split.
  - unfold rstrip; rewrite <- rev_app_distr, <- E, rev_involutive; reflexivity.
  - unfold all_whitespace in *; rewrite forallb_forall in *.
    intros c Hc; apply Hw, in_rev; exact Hc.
Qed.

(** [split] already ignores what [strip] removes. *)
Lemma split_strip (s : str) : split (strip s) = split s.
Proof.
  unfold strip.
  destruct (lstrip_prefix s) as (w & E & Hw).
  destruct (rstrip_suffix (lstrip s)) as (w' & E' & Hw').
  rewrite E at 2; rewrite split_whitespace_app by exact Hw.
  rewrite E' at 2; unfold split; rewrite split_from_app_whitespace by exact Hw'.
  reflexivity.
Qed.

Lemma lstrip_whitespace_free (s : str) : whitespace_free s = true -> lstrip s = s.
Proof.
  destruct s as [|c s]; [reflexivity|]; simpl.
  destruct (isspace_char c); [discriminate | reflexivity].
Qed.

Lemma strip_whitespace_free (s : str) : whitespace_free s = true -> strip s = s.
Proof.
  intros H; unfold strip, rstrip.
  rewrite (lstrip_whitespace_free s H), lstrip_whitespace_free, rev_involutive;
    [reflexivity | rewrite whitespace_free_rev; exact H].
Qed.

Lemma split_from_whitespace_free (s tok : str) :
  whitespace_free s = true -> split_from tok s =
    match tok ++ s with [] => [] | _ => [rev tok ++ s] end.
Proof.
  revert tok; induction s as [|c s IH]; intros tok H; simpl.
  - rewrite !app_nil_r; destruct tok; reflexivity.
  - simpl in H; apply andb_true_iff in H; destruct H as [Hc H].
    apply negb_true_iff in Hc; rewrite Hc, IH by exact H.
    simpl; rewrite <- app_assoc; simpl. destruct tok; reflexivity.
Qed.

(** A non-empty string without whitespace is its own single token. *)
Lemma split_single (s : str) :
  s <> [] -> whitespace_free s = true -> split s = [s].
Proof.
  intros Hne H; unfold split; rewrite split_from_whitespace_free by exact H.
  destruct s; [congruence | reflexivity].
Qed.

End Splitting.

(** * Facts about the character tables *)

Section Tables.

Import Unicode.

Lemma ranges_disjoint_sound (lo hi c : N) (t : list (N * N)) :
  ranges_disjoint lo hi t = true -> (lo <= c <= hi)%N -> in_ranges c t = false.
Proof.
  intros H Hc; induction t as [|[a b] t IH]; [reflexivity|].
  simpl in H |- *; apply andb_true_iff in H; destruct H as [H1 H2].
  rewrite (IH H2), orb_false_r.
  apply orb_true_iff in H1; rewrite !N.ltb_lt in H1.
  apply andb_false_iff; rewrite !N.leb_gt; lia.
Qed.

Lemma in_ranges_In (c : N) (t : list (N * N)) :
  in_ranges c t = true -> exists lo hi, In (lo, hi) t /\ (lo <= c <= hi)%N.
Proof.
  induction t as [|[a b] t IH]; simpl; [discriminate|].
  rewrite orb_true_iff, andb_true_iff, !N.leb_le.
  intros [H | H]; [exists a, b; auto|].
  destruct (IH H) as (lo & hi & ? & ?); exists lo, hi; auto.
Qed.

Lemma tables_disjoint_sound (t t' : list (N * N)) (c : N) :
  forallb (fun r => ranges_disjoint (fst r) (snd r) t') t = true ->
  in_ranges c t = true -> in_ranges c t' = false.
Proof.
  intros H Hc; destruct (in_ranges_In c t Hc) as (lo & hi & Hin & Hb).
  rewrite forallb_forall in H.
  apply (ranges_disjoint_sound lo hi); [exact (H _ Hin) | exact Hb].
Qed.

Lemma special_mapping_In (c : N) (t : list (N * list N)) (m : list N) :
  special_mapping c t = Some m -> In (c, m) t.
Proof.
  induction t as [|[k m'] t IH]; simpl; [discriminate|].
  destruct (c =? k)%N eqn:E; [|auto].
  apply N.eqb_eq in E; intros [= ->]; subst; auto.
Qed.

Lemma simple_mapping_In (c d : N) (t : list (N * N * N * N)) :
  simple_mapping c t = Some d ->
  exists lo hi step tlo,
    In (lo, hi, step, tlo) t /\ (lo <= c <= hi)%N /\ d = (tlo + (c - lo))%N.
Proof.
  induction t as [|[[[lo hi] step] tlo] t IH]; simpl; [discriminate|].
  destruct ((lo <=? c) && (c <=? hi) && ((c - lo) mod step =? 0))%N eqn:E.
  - intros [= <-]; rewrite !andb_true_iff, !N.leb_le in E.
    exists lo, hi, step, tlo; intuition.
  - intros H; destruct (IH H) as (lo' & hi' & step' & tlo' & ? & ?).
    exists lo', hi', step', tlo'; auto.
Qed.

(** Whitespace characters are neither cased nor case-ignorable. *)
Lemma whitespace_uncased (c : N) :
  IsWhitespace c = true -> IsCased c = false /\ IsCaseIgnorable c = false.
Proof.
  intros H; split; eapply tables_disjoint_sound; try exact H;
    vm_compute; reflexivity.
Qed.

(** No case mapping starts from, or produces, a whitespace character. *)
Lemma full_mapping_whitespace (special : list (N * list N))
    (simple : list (N * N * N * N)) :
  forallb (fun e => negb (IsWhitespace (fst e)) &&
                    negb (match snd e with [] => true | _ => false end) &&
                    forallb (fun d => negb (IsWhitespace d)) (snd e)) special = true ->
  forallb (fun e => match e with
                    | (lo, hi, _, tlo) =>
                        ranges_disjoint lo hi whitespace_table &&
                        ranges_disjoint tlo (tlo + (hi - lo)) whitespace_table
                    end) simple = true ->
  forall c,
    (IsWhitespace c = true -> full_mapping special simple c = [c]) /\
    (IsWhitespace c = false ->
       full_mapping special simple c <> [] /\
       forallb (fun d => negb (IsWhitespace d)) (full_mapping special simple c) = true).
Proof.
  intros Hsp Hsi c; rewrite forallb_forall in Hsp, Hsi; unfold full_mapping.
  destruct (special_mapping c special) as [m|] eqn:E1.
  { apply special_mapping_In, Hsp in E1; simpl in E1.
    rewrite !andb_true_iff, !negb_true_iff in E1; destruct E1 as [[H1 H2] H3].
    split; [congruence|]. intros _; split; [|exact H3].
    destruct m; [discriminate | discriminate]. }
  destruct (simple_mapping c simple) as [d|] eqn:E2.
  { apply simple_mapping_In in E2.
    destruct E2 as (lo & hi & step & tlo & Hin & Hc & ->).
    apply Hsi in Hin; apply andb_true_iff in Hin; destruct Hin as [H1 H2].
    pose proof (ranges_disjoint_sound _ _ c _ H1 Hc) as Hw.
    pose proof (ranges_disjoint_sound _ _ (tlo + (c - lo))%N _ H2) as Hd.
    fold (IsWhitespace c) in Hw; fold (IsWhitespace (tlo + (c - lo))) in Hd.
    split; [congruence|].
    intros _; split; [discriminate|]. cbn [forallb]; rewrite Hd by lia; reflexivity. }
  split; [reflexivity|].
  intros H; split; [discriminate|]. cbn [forallb]; rewrite H; reflexivity.
Qed.

Lemma ToLowerFull_whitespace (c : N) :
  (IsWhitespace c = true -> ToLowerFull c = [c]) /\
  (IsWhitespace c = false ->
     ToLowerFull c <> [] /\
     forallb (fun d => negb (IsWhitespace d)) (ToLowerFull c) = true).
Proof.
  apply full_mapping_whitespace; vm_compute; reflexivity.
Qed.

Lemma below_128 (P : N -> bool) (c : N) :
  forallb P (map N.of_nat (seq 0 128)) = true -> (c < 128)%N -> P c = true.
Proof.
  intros H Hc; rewrite forallb_forall in H; apply H.
  rewrite <- (N2Nat.id c); apply in_map, in_seq; lia.
Qed.

(** On ASCII, upper-casing yields one ASCII character with the same
    lower-case form. *)
Lemma ascii_upper_lower (c : N) :
  (c < 128)%N ->
  exists u, ToUpperFull c = [u] /\ (u < 128)%N /\ ToLowerFull u = ToLowerFull c.
Proof.
  intros Hc.
  pose proof (below_128
    (fun c => match ToUpperFull c with
              | [u] => (u <? 128)%N &&
                       match ToLowerFull u, ToLowerFull c with
                       | [a], [b] => (a =? b)%N
                       | _, _ => false
                       end
              | _ => false
              end) c) as H.
  cbv beta in H; specialize (H ltac:(vm_compute; reflexivity) Hc).
  destruct (ToUpperFull c) as [|u [|? ?]]; try discriminate.
  exists u; apply andb_true_iff in H; destruct H as [H1 H2].
  apply N.ltb_lt in H1; split; [reflexivity|]. split; [exact H1|].
  destruct (ToLowerFull u) as [|a [|? ?]]; try discriminate.
  destruct (ToLowerFull c) as [|b [|? ?]]; try discriminate.
  apply N.eqb_eq in H2; congruence.
Qed.

End Tables.

(** * Lower-casing *)

Section Lowering.

Lemma handle_capital_sigma_cases (before after : str) :
  handle_capital_sigma before after = 0x3C2%N \/
  handle_capital_sigma before after = 0x3C3%N.
Proof.
  unfold handle_capital_sigma.
  match goal with |- context [if ?b then 0x3C2%N else _] => destruct b end; auto.
Qed.

(** Lower-casing maps a whitespace character to itself and any other
    character to a non-empty string without whitespace. *)
Lemma lower_ucs4_whitespace (before : str) (c : char) (after : str) :
  (isspace_char c = true -> lower_ucs4 before c after = [c]) /\
  (isspace_char c = false ->
     lower_ucs4 before c after <> [] /\
     whitespace_free (lower_ucs4 before c after) = true).
Proof.
  unfold lower_ucs4; destruct (c =? 0x3A3)%N eqn:E.
  - apply N.eqb_eq in E; subst c; split; [intros H; vm_compute in H; discriminate|].
    intros _; split; [discriminate|].
    destruct (handle_capital_sigma_cases before after) as [-> | ->];
      vm_compute; reflexivity.
  - apply ToLowerFull_whitespace.
Qed.

Lemma whitespace_free_not_all (s : str) :
  s <> [] -> whitespace_free s = true -> all_whitespace s = false.
Proof.
  destruct s as [|c s]; [congruence|]; simpl; intros _ H.
  apply andb_true_iff in H; destruct H as [H _].
  apply negb_true_iff in H; rewrite H; reflexivity.
Qed.

Lemma do_lower_all_whitespace (s before : str) :
  all_whitespace (do_lower before s) = all_whitespace s.
Proof.
  revert before; induction s as [|c s IH]; intros before; [reflexivity|].
  cbn [do_lower]; unfold all_whitespace in *; rewrite forallb_app, IH; cbn [forallb].
  destruct (lower_ucs4_whitespace before c s) as [H1 H2].
  destruct (isspace_char c) eqn:E.
  - rewrite H1 by reflexivity; simpl; rewrite E; reflexivity.
  - destruct (H2 eq_refl) as [Hne Hfree].
    pose proof (whitespace_free_not_all _ Hne Hfree) as Hno.
    unfold all_whitespace in Hno; rewrite Hno; reflexivity.
Qed.

Lemma do_lower_whitespace_free (s before : str) :
  whitespace_free s = true ->
  whitespace_free (do_lower before s) = true /\ (s <> [] -> do_lower before s <> []).
Proof.
  revert before; induction s as [|c s IH]; intros before H; [split; [reflexivity | congruence]|].
  simpl in H; apply andb_true_iff in H; destruct H as [Hc Hs].
  apply negb_true_iff in Hc.
  destruct (lower_ucs4_whitespace before c s) as [_ H2].
  destruct (H2 Hc) as [Hne Hfree]; destruct (IH (c :: before) Hs) as [IH1 _].
  cbn [do_lower]; split.
  - unfold whitespace_free in *; rewrite forallb_app, Hfree, IH1; reflexivity.
  - intros _ E; apply app_eq_nil in E; tauto.
Qed.

Lemma skip_case_ignorable_app {B : Type} (f : char -> B) (d : B) (s w : str) :
  all_whitespace w = true ->
  (forall c, isspace_char c = true -> f c = d) ->
  match skip_case_ignorable (s ++ w) with Some c => f c | None => d end =
  match skip_case_ignorable s with Some c => f c | None => d end.
Proof.
  intros Hw Hf; induction s as [|c s IH]; simpl.
  - destruct w as [|c w]; [reflexivity|]; simpl in Hw |- *.
    apply andb_true_iff in Hw; destruct Hw as [Hc _].
    destruct (whitespace_uncased c Hc) as [_ ->]; auto.
  - destruct (Unicode.IsCaseIgnorable c); [exact IH | reflexivity].
Qed.

(** Surrounding whitespace does not change the form a sigma takes. *)
Lemma handle_capital_sigma_pad (before after w w' : str) :
  all_whitespace w = true -> all_whitespace w' = true ->
  handle_capital_sigma (before ++ w) (after ++ w') =
  handle_capital_sigma before after.
Proof.
  intros Hw Hw'; unfold handle_capital_sigma.
  rewrite (skip_case_ignorable_app Unicode.IsCased false before w Hw)
    by (intros c Hc; apply whitespace_uncased; exact Hc).
  rewrite (skip_case_ignorable_app (fun c => negb (Unicode.IsCased c)) true after w' Hw')
    by (intros c Hc; destruct (whitespace_uncased c Hc) as [-> _]; reflexivity).
  reflexivity.
Qed.

Lemma do_lower_whitespace (w before : str) :
  all_whitespace w = true -> do_lower before w = w.
Proof.
  revert before; induction w as [|c w IH]; intros before Hw; [reflexivity|].
  simpl in Hw; apply andb_true_iff in Hw; destruct Hw as [Hc Hw].
  cbn [do_lower]; rewrite (proj1 (lower_ucs4_whitespace before c w) Hc), IH by exact Hw.
  reflexivity.
Qed.

Lemma do_lower_pad (s before w w' : str) :
  all_whitespace w = true -> all_whitespace w' = true ->
  do_lower (before ++ w) (s ++ w') = do_lower before s ++ w'.
Proof.
  intros Hw Hw'; revert before; induction s as [|c s IH]; intros before.
  - apply do_lower_whitespace; exact Hw'.
  - cbn [do_lower app]; rewrite <- app_assoc; f_equal; [|apply (IH (c :: before))].
    unfold lower_ucs4; rewrite handle_capital_sigma_pad by assumption; reflexivity.
Qed.

Lemma do_lower_whitespace_app (w s before : str) :
  all_whitespace w = true ->
  do_lower before (w ++ s) = w ++ do_lower (rev w ++ before) s.
Proof.
  revert before; induction w as [|c w IH]; intros before Hw; [reflexivity|].
  simpl in Hw; apply andb_true_iff in Hw; destruct Hw as [Hc Hw].
  cbn [do_lower app rev].
  rewrite (proj1 (lower_ucs4_whitespace before c (w ++ s)) Hc), IH by exact Hw.
  rewrite <- app_assoc; reflexivity.
Qed.

(** [lower] commutes with whitespace padding. *)
Lemma lower_pad (w s w' : str) :
  all_whitespace w = true -> all_whitespace w' = true ->
  lower (w ++ s ++ w') = w ++ lower s ++ w'.
Proof.
  intros Hw Hw'; unfold lower.
  rewrite do_lower_whitespace_app, app_nil_r by exact Hw; f_equal.
  apply (do_lower_pad s [] (rev w)); [|exact Hw'].
  unfold all_whitespace in *; rewrite forallb_forall in *.
  intros c Hc; apply Hw, in_rev; exact Hc.
Qed.

Lemma name_parts_pad (w s w' : str) :
  all_whitespace w = true -> all_whitespace w' = true ->
  name_parts (w ++ s ++ w') = name_parts s.
Proof.
  intros Hw Hw'; unfold name_parts.
  rewrite !split_strip, lower_pad, split_whitespace_app by assumption.
  unfold split; apply split_from_app_whitespace; exact Hw'.
Qed.

Lemma do_lower_no_sigma (s before : str) :
  Forall (fun c => c <> 0x3A3%N) s -> do_lower before s = flat_map Unicode.ToLowerFull s.
Proof.
  intros H; revert before; induction H as [|c s Hc Hs IH]; intros before; [reflexivity|].
  cbn [do_lower flat_map]; rewrite IH; unfold lower_ucs4.
  apply N.eqb_neq in Hc; rewrite Hc; reflexivity.
Qed.

Lemma is_ascii_no_sigma (s : str) :
  is_ascii s = true -> Forall (fun c => c <> 0x3A3%N) s.
Proof.
  unfold is_ascii; rewrite forallb_forall, Forall_forall.
  intros H c Hc; apply H, N.ltb_lt in Hc; lia.
Qed.

Lemma upper_is_ascii (s : str) : is_ascii s = true -> is_ascii (upper s) = true.
Proof.
  induction s as [|c s IH]; [reflexivity|]; simpl; intros H.
  apply andb_true_iff in H; destruct H as [Hc Hs]; apply N.ltb_lt in Hc.
  destruct (ascii_upper_lower c Hc) as (u & -> & Hu & _).
  simpl; rewrite (IH Hs), andb_true_r; apply N.ltb_lt; exact Hu.
Qed.

(** On ASCII strings, upper-casing is undone by lower-casing. *)
Lemma lower_upper_ascii (s : str) : is_ascii s = true -> lower (upper s) = lower s.
Proof.
  intros H; unfold lower.
  rewrite !do_lower_no_sigma by (apply is_ascii_no_sigma; auto using upper_is_ascii).
  induction s as [|c s IH]; [reflexivity|].
  simpl in H; apply andb_true_iff in H; destruct H as [Hc Hs]; apply N.ltb_lt in Hc.
  destruct (ascii_upper_lower c Hc) as (u & Eu & _ & El).
  cbn [upper flat_map]; rewrite Eu; cbn [app flat_map].
  rewrite El; f_equal; apply IH; exact Hs.
Qed.

End Lowering.

(** * The generator *)

Section Generator.

Lemma name_parts_tokens (s : str) :
  Forall (fun t => t <> [] /\ whitespace_free t = true) (name_parts s).
Proof. apply split_tokens. Qed.

Lemma name_parts_nonempty (s : str) : Forall (fun p => p <> []) (name_parts s).
Proof.
  eapply Forall_impl; [|apply name_parts_tokens]. intros t [H _]; exact H.
Qed.

Lemma name_parts_nil (s : str) : name_parts s = [] <-> all_whitespace s = true.
Proof.
  unfold name_parts, lower.
  rewrite split_strip, split_nil, do_lower_all_whitespace; tauto.
Qed.

Lemma generate_no_parts (s : str) :
  name_parts s = [] -> generate_username_combinations s = Ok [].
Proof.
  intros E; unfold generate_username_combinations; rewrite E; reflexivity.
Qed.

(** With at least one part, the function returns the sorted candidates. *)
Lemma generate_candidates (s : str) :
  name_parts s <> [] ->
  exists u,
    generate_username_combinations s = Ok (sorted u) /\
    NoDup u /\
    (forall x, In x u <-> candidate (name_parts s) x) /\
    (List.length u <= insertions (List.length (name_parts s)))%nat.
Proof.
  intros Hne.
  destruct (blocks_build_candidates (name_parts s) (name_parts_nonempty s))
    as (u & E & H).
  exists u; split; [|exact H].
  unfold generate_username_combinations.
  destruct (name_parts s) eqn:Ep; [congruence | exact E].
Qed.

Lemma generate_returns (s : str) :
  exists l, generate_username_combinations s = Ok l.
Proof.
  destruct (name_parts s) eqn:E.
  - exists []; apply generate_no_parts; exact E.
  - destruct (generate_candidates s) as (u & Eu & _); [congruence | eauto].
Qed.

Lemma candidate_reference (parts : list str) (x : str) :
  candidate parts x <-> reference_rule parts x.
Proof.
  unfold candidate, pair_at, triple_at, first_letter_at, middle_initial_at; split.
  - intros [H | [H | [H | [H | [H | H]]]]].
    + apply rule_single; exact H.
    + destruct H as (i & j & Hij & pi & pj & Ei & Ej & [-> | ->]);
        [eapply rule_pair | eapply rule_pair_swapped]; eassumption.
    + destruct H as (i & j & k & [Hij Hjk] & pi & pj & pk & Ei & Ej & Ek & ->).
      eapply (rule_triple parts i j k); try eassumption.
      assert (k < List.length parts)%nat by (apply nth_error_Some; congruence).
      lia.
    + destruct H as (Hn & first & last & E0 & El & [-> | ->]);
        [eapply rule_initial_last | eapply rule_first_initial]; eassumption.
    + destruct H as (Hn & first & middle & last & E0 & E1 & El & ->).
      rewrite <- app_assoc; eapply rule_middle_initial; eassumption.
    + subst x; apply rule_full_name.
  - intros H; destruct H.
    + left; assumption.
    + right; left; exists i, j; split; [assumption|]. exists pi, pj; auto.
    + right; left; exists i, j; split; [assumption|]. exists pi, pj; auto.
    + right; right; left; exists i, j, k; split; [lia|].
      exists pi, pj, pk; auto.
    + right; right; right; left; split; [assumption|].
      exists first, last; auto.
    + right; right; right; left; split; [assumption|].
      exists first, last; auto.
    + right; right; right; right; left; split; [assumption|].
      exists first, middle, last; rewrite <- app_assoc; auto.
    + right; right; right; right; right; reflexivity.
Qed.

(** With a single part, the part itself is the only candidate. *)
Lemma candidate_single (t x : str) : candidate [t] x <-> In x [t].
Proof.
  assert (Hnth : forall j p, nth_error [t] j = Some p -> (j < 1)%nat).
  { intros j p H; apply (nth_error_bound [t] j p H). }
  unfold candidate, pair_at, triple_at, join; simpl; rewrite app_nil_r; split.
  - intros [H | [H | [H | [H | [H | H]]]]].
    + exact H.
    + destruct H as (i & j & Hij & _ & pj & _ & Ej & _); apply Hnth in Ej; lia.
    + destruct H as (i & j & k & Hijk & _ & _ & pk & _ & _ & Ek & _).
      apply Hnth in Ek; lia.
    + lia.
    + lia.
    + left; congruence.
  - intros [<- | []]; left; left; reflexivity.
Qed.

End Generator.

(** * The claims *)

(** C1. For every input string, the function returns, as a set, exactly the
    candidates of the reference algorithm of section 4.1: nothing when the
    normalized input has no parts, and otherwise the single parts, both
    orders of every pair of positions, the in-order triples, the two
    first-letter forms, the middle-initial form and the full
    concatenation. *)
Theorem generate_matches_reference (s : str) :
  exists l,
    generate_username_combinations s = Ok l /\
    forall x, In x l <-> reference_candidates s x.
Proof.
  unfold reference_candidates, normalize; fold (name_parts s).
  destruct (name_parts s) eqn:E.
  - exists []; split; [apply generate_no_parts; exact E|].
    intros x; split; [intros [] | intros [H _]; congruence].
  - rewrite <- E. assert (Hne : name_parts s <> []) by congruence.
    destruct (generate_candidates s Hne) as (u & Eu & _ & Hin & _).
    exists (sorted u); split; [exact Eu|].
    intros x; rewrite sorted_In, Hin, candidate_reference; tauto.
Qed.

(** C2. The function is total: for every input string it returns a result
    and raises nothing.  Every name part is a non-empty string, so the
    blocks that read a first character ([parts[0][0]], [parts[-1][0]],
    [parts[1][0]]) never raise on the parts of any input. *)
Theorem generate_total (s : str) :
  (exists l, generate_username_combinations s = Ok l) /\
  Forall (fun p => p <> []) (name_parts s) /\
  (forall u, exists u', first_letter_combinations (name_parts s) u = Ok u') /\
  (forall u, exists u', middle_initial_combination (name_parts s) u = Ok u').
Proof.
  split; [apply generate_returns|].
  split; [apply name_parts_nonempty|].
  split; intros u.
  - destruct (first_letter_combinations_adds _ (name_parts_nonempty s) u)
      as (u' & E & _); eauto.
  - destruct (middle_initial_combination_adds _ (name_parts_nonempty s) u)
      as (u' & E & _); eauto.
Qed.

(** C3. For an input with at least three parts, the three-part block adds
    exactly the strings [parts[i] + parts[j] + parts[k]] with [i < j < k],
    and the result contains each of them; the result for "Alice Bob Carol"
    contains "alicebobcarol" (and not "carolbobalice"). *)
Theorem three_part_rule_in_order :
  (forall s : str,
     (3 <= List.length (name_parts s))%nat ->
     (forall u, exists u',
        three_part_combinations (name_parts s) u = Ok u' /\
        forall x, In x u' <->
                  In x u \/
                  exists i j k, (i < j < k)%nat /\ triple_at (name_parts s) i j k x) /\
     (exists l,
        generate_username_combinations s = Ok l /\
        forall i j k x,
          (i < j < k)%nat -> triple_at (name_parts s) i j k x -> In x l)) /\
  (exists l,
     generate_username_combinations (of_string "Alice Bob Carol") = Ok l /\
     In (of_string "alicebobcarol") l /\
     ~ In (of_string "carolbobalice") l).
Proof.
  split.
  - intros s Hn; split.
    + intros u.
      destruct (three_part_combinations_adds (name_parts s) u) as (u' & E & _ & H & _).
      exists u'; split; [exact E | exact H].
    + destruct (generate_candidates s) as (u & E & _ & Hin & _).
      { intros E; rewrite E in Hn; simpl in Hn; lia. }
      exists (sorted u); split; [exact E|].
      intros i j k x Hijk Hx; apply sorted_In, Hin.
      right; right; left; eauto.
  - eexists; split; [vm_compute; reflexivity|].
    split; [apply set_mem_In; vm_compute; reflexivity|].
    intros H; apply set_mem_In in H; vm_compute in H; discriminate.
Qed.

Lemma three_part_rule_in_order_witness :
  exists l,
    generate_username_combinations (of_string "Alice Bob Carol") = Ok l /\
    forall i j k x,
      (i < j < k)%nat ->
      triple_at (name_parts (of_string "Alice Bob Carol")) i j k x -> In x l.
Proof.
  apply (proj1 three_part_rule_in_order (of_string "Alice Bob Carol")).
  vm_compute; lia.
Defined.

(** C4, as the specification states it, fails: upper-casing is not undone
    by lower-casing outside ASCII.  For U+00DF, whose upper-case form is
    "SS", the two results are the singletons of U+00DF and of "ss". *)
Lemma case_idempotence_counterexample :
  ~ (forall s l l',
       generate_username_combinations s = Ok l ->
       generate_username_combinations (upper s) = Ok l' ->
       forall x, In x l <-> In x l').
Proof.
  intros H.
  specialize (H [0xDF%N] [[0xDF%N]] [of_string "ss"] eq_refl eq_refl [0xDF%N]).
  destruct H as [H _]; destruct (H (or_introl eq_refl)) as [E | []].
  discriminate E.
Qed.

(** C4, amended.  The result for [s.upper()] is the result for [s] whenever
    lower-casing undoes the upper-casing, which it does for every ASCII
    string; the result for [s] padded with two spaces on each side is the
    result for [s], for every string. *)
Theorem case_and_whitespace_idempotence (s : str) :
  (lower (upper s) = lower s ->
   generate_username_combinations (upper s) = generate_username_combinations s) /\
  (is_ascii s = true ->
   generate_username_combinations (upper s) = generate_username_combinations s) /\
  generate_username_combinations (of_string "  " ++ s ++ of_string "  ") =
  generate_username_combinations s.
Proof.
  assert (Hcase : lower (upper s) = lower s ->
    generate_username_combinations (upper s) = generate_username_combinations s).
  { intros E; unfold generate_username_combinations, name_parts; rewrite E.
    reflexivity. }
  split; [exact Hcase|].
  split; [intros H; apply Hcase, lower_upper_ascii; exact H|].
  unfold generate_username_combinations.
  rewrite name_parts_pad by reflexivity; reflexivity.
Qed.

Lemma case_and_whitespace_idempotence_witness :
  generate_username_combinations (upper (of_string "Ada Lovelace")) =
  generate_username_combinations (of_string "Ada Lovelace").
Proof.
  apply (proj1 (proj2 (case_and_whitespace_idempotence (of_string "Ada Lovelace")))).
  vm_compute; reflexivity.
Defined.

(** C5, as the specification states it, fails: five equal tokens yield
    only four candidates ("a", "aa", "aaa", "aaaaa"), fewer than the five
    tokens. *)
Lemma size_lower_bound_counterexample :
  ~ (forall s l,
       generate_username_combinations s = Ok l ->
       (1 <= List.length (name_parts s))%nat ->
       (List.length (name_parts s) <= List.length l)%nat).
Proof.
  intros H.
  specialize (H (of_string "a a a a a")
                (map of_string ["a"; "aa"; "aaa"; "aaaaa"]%string) eq_refl).
  vm_compute in H.
  specialize (H (le_n_S _ _ (le_0_n _))).
  repeat (apply le_S_n in H). inversion H.
Qed.

(** C5, amended.  For an input with [n >= 1] tokens, the number of
    candidates returned is at least the number of distinct tokens (and at
    least one), and at most [n + n * (n - 1) + C(n, 3) + 4], where
    [6 * C(n, 3) = n * (n - 1) * (n - 2)]. *)
Theorem candidate_count_bounds (s : str) :
  let n := List.length (name_parts s) in
  (1 <= n)%nat ->
  exists l,
    generate_username_combinations s = Ok l /\
    (distinct_count (name_parts s) <= List.length l)%nat /\
    (1 <= List.length l)%nat /\
    (List.length l <= n + n * (n - 1) + choose n 3 + 4)%nat /\
    (6 * choose n 3 = n * (n - 1) * (n - 2))%nat.
Proof.
  intros n Hn; subst n.
  destruct (generate_candidates s) as (u & E & Hnd & Hin & Hlen).
  { intros E; rewrite E in Hn; simpl in Hn; lia. }
  exists (sorted u); split; [exact E|].
  assert (Hd : (distinct_count (name_parts s) <= List.length (sorted u))%nat).
  { unfold distinct_count; apply NoDup_incl_length; [apply NoDup_nodup|].
    intros x Hx; apply nodup_In in Hx; apply sorted_In, Hin; left; exact Hx. }
  split; [exact Hd|].
  split.
  - eapply Nat.le_trans; [|exact Hd]. unfold distinct_count.
    destruct (name_parts s) as [|p parts] eqn:Ep; [simpl in Hn; lia|].
    assert (Hp : In p (nodup (list_eq_dec N.eq_dec) (p :: parts)))
      by (apply nodup_In; left; reflexivity).
    destruct (nodup (list_eq_dec N.eq_dec) (p :: parts)); [destruct Hp | simpl; lia].
  - split; [rewrite sorted_length; exact Hlen | apply choose_3].
Qed.

Lemma candidate_count_bounds_witness :
  exists l,
    generate_username_combinations (of_string "a a a a a") = Ok l /\
    (distinct_count (name_parts (of_string "a a a a a")) <= List.length l)%nat /\
    (1 <= List.length l)%nat /\
    (List.length l <= 5 + 5 * (5 - 1) + choose 5 3 + 4)%nat /\
    (6 * choose 5 3 = 5 * (5 - 1) * (5 - 2))%nat.
Proof.
  apply (candidate_count_bounds (of_string "a a a a a")).
  vm_compute; lia.
Defined.

(** C6. An input that normalizes to exactly one token [t] yields exactly
    the singleton of [t]. *)
Theorem single_token (s t : str) :
  name_parts s = [t] -> generate_username_combinations s = Ok [t].
Proof.
  intros E.
  destruct (generate_candidates s) as (u & Eu & Hnd & Hin & _); [congruence|].
  rewrite Eu; f_equal.
  apply strictly_sorted_unique;
    [apply sorted_strict; exact Hnd | repeat constructor |].
  intros x; rewrite sorted_In, Hin, E; apply candidate_single.
Qed.

Lemma single_token_witness :
  generate_username_combinations (of_string "Madonna") = Ok [of_string "madonna"].
Proof.
  apply (single_token (of_string "Madonna") (of_string "madonna")).
  vm_compute; reflexivity.
Defined.

(** Every non-empty string without whitespace normalizes to one token, its
    lower-case form. *)
Lemma name_parts_single (s : str) :
  s <> [] -> whitespace_free s = true -> name_parts s = [lower s].
Proof.
  intros Hne Hfree.
  destruct (do_lower_whitespace_free s [] Hfree) as [H1 H2].
  unfold name_parts; rewrite split_strip.
  apply split_single; [apply H2; exact Hne | exact H1].
Qed.

(** C7. An input that normalizes to two tokens [a], [b] yields a superset
    of [a], [b], [a + b], [b + a], [a[0] + b] and [a + b[0]]. *)
Theorem two_tokens_superset (s a b : str) :
  name_parts s = [a; b] ->
  exists l,
    generate_username_combinations s = Ok l /\
    In a l /\ In b l /\ In (a ++ b) l /\ In (b ++ a) l /\
    In (first_character a ++ b) l /\ In (a ++ first_character b) l.
Proof.
  intros E.
  destruct (generate_candidates s) as (u & Eu & _ & Hin & _); [congruence|].
  exists (sorted u); split; [exact Eu|].
  rewrite E in Hin.
  assert (Hpair : forall x, x = a ++ b \/ x = b ++ a -> candidate [a; b] x).
  { intros x Hx; right; left; exists 0%nat, 1%nat; split; [lia|].
    exists a, b; auto. }
  assert (Hfirst : forall x,
            x = first_character a ++ b \/ x = a ++ first_character b ->
            candidate [a; b] x).
  { intros x Hx; right; right; right; left; split; [simpl; lia|].
    exists a, b; auto. }
  repeat split; apply sorted_In, Hin; auto;
    left; simpl; auto.
Qed.

Lemma two_tokens_superset_witness :
  exists l,
    generate_username_combinations (of_string "Ada Lovelace") = Ok l /\
    In (of_string "ada") l /\ In (of_string "lovelace") l /\
    In (of_string "ada" ++ of_string "lovelace") l /\
    In (of_string "lovelace" ++ of_string "ada") l /\
    In (first_character (of_string "ada") ++ of_string "lovelace") l /\
    In (of_string "ada" ++ first_character (of_string "lovelace")) l.
Proof.
  apply (two_tokens_superset (of_string "Ada Lovelace")).
  vm_compute; reflexivity.
Defined.

(** C8. The result is empty exactly when the input is empty or made of
    whitespace only; the results for "" and "   " are empty, and an input
    with a non-whitespace character yields at least one candidate. *)
Theorem empty_result_iff_blank :
  (forall s, generate_username_combinations s = Ok [] <-> all_whitespace s = true) /\
  generate_username_combinations [] = Ok [] /\
  generate_username_combinations (of_string "   ") = Ok [] /\
  (forall s, all_whitespace s = false ->
             exists x l, generate_username_combinations s = Ok (x :: l)).
Proof.
  assert (Hsome : forall s, name_parts s <> [] ->
            exists x l, generate_username_combinations s = Ok (x :: l)).
  { intros s Hne.
    destruct (generate_candidates s Hne) as (u & E & _ & Hin & _).
    destruct (name_parts s) as [|p parts] eqn:Ep; [congruence|].
    assert (Hp : In p (sorted u)) by (apply sorted_In, Hin; left; left; reflexivity).
    destruct (sorted u) as [|x l]; [destruct Hp|].
    exists x, l; exact E. }
  split; [|split; [reflexivity | split; [reflexivity|]]].
  - intros s; rewrite <- name_parts_nil; split.
    + intros E; destruct (name_parts s) as [|p parts] eqn:Ep; [reflexivity|].
      destruct (Hsome s) as (x & l & E'); [congruence | congruence].
    + apply generate_no_parts.
  - intros s Hs; apply Hsome; rewrite name_parts_nil; congruence.
Qed.

Lemma empty_result_iff_blank_witness :
  exists x l, generate_username_combinations (of_string " x ") = Ok (x :: l).
Proof.
  apply (proj2 (proj2 (proj2 empty_result_iff_blank)) (of_string " x ")).
  vm_compute; reflexivity.
Defined.

(** C9. The result for "Dilanka Kaushal Hewage" contains the thirteen
    candidates listed in the specification. *)
Theorem dilanka_kaushal_hewage :
  exists l,
    generate_username_combinations (of_string "Dilanka Kaushal Hewage") = Ok l /\
    Forall (fun x => In (of_string x) l)
      ["dilanka"; "kaushal"; "hewage"; "dilankakaushal"; "kaushaldilanka";
       "dilankahewage"; "hewagedilanka"; "kaushalhewage"; "hewagekaushal";
       "dilankakaushalhewage"; "dhewage"; "dilankah"; "dilankakhewage"]%string.
Proof.
  eexists; split; [vm_compute; reflexivity|].
  repeat (apply Forall_cons; [apply set_mem_In; vm_compute; reflexivity|]).
  apply Forall_nil.
Qed.

(** C10. For every input string, the sequence returned is sorted in
    strictly increasing lexicographic order and so holds no duplicate. *)
Theorem result_strictly_sorted (s : str) :
  exists l,
    generate_username_combinations s = Ok l /\
    StronglySorted str_lt l /\ NoDup l.
Proof.
  destruct (name_parts s) eqn:E.
  - exists []; split; [apply generate_no_parts; exact E|].
    split; constructor.
  - destruct (generate_candidates s) as (u & Eu & Hnd & _); [congruence|].
    exists (sorted u); split; [exact Eu|].
    split; [apply sorted_strict | apply sorted_NoDup]; exact Hnd.
Qed.

(** * Further properties of the generator *)

Section Candidates.

Lemma whitespace_free_app (a b : str) :
  whitespace_free (a ++ b) = whitespace_free a && whitespace_free b.
Proof. apply forallb_app. Qed.

Lemma whitespace_free_first_character (a : str) :
  whitespace_free a = true -> whitespace_free (first_character a) = true.
Proof.
  destruct a as [|c a]; [reflexivity|]; simpl.
  intros H; apply andb_true_iff in H; destruct H as [-> _]; reflexivity.
Qed.

Lemma wellformed_app_l (a b : str) :
  wellformed a -> whitespace_free b = true -> wellformed (a ++ b).
Proof.
  intros [Hne Hf] Hb; split.
  - destruct a; [congruence | discriminate].
  - rewrite whitespace_free_app, Hf, Hb; reflexivity.
Qed.

Lemma wellformed_app_r (a b : str) :
  whitespace_free a = true -> wellformed b -> wellformed (a ++ b).
Proof.
  intros Ha [Hne Hf]; split.
  - intros E; apply app_eq_nil in E; tauto.
  - rewrite whitespace_free_app, Hf, Ha; reflexivity.
Qed.

Lemma whitespace_free_concat (parts : list str) :
  Forall wellformed parts -> whitespace_free (List.concat parts) = true.
Proof.
  induction 1 as [|p parts [_ Hp] _ IH]; [reflexivity|].
  simpl; rewrite whitespace_free_app, Hp, IH; reflexivity.
Qed.

Lemma candidate_wellformed (parts : list str) (x : str) :
  parts <> [] -> Forall wellformed parts -> candidate parts x -> wellformed x.
Proof.
  intros Hne Hparts Hx.
  assert (Hnth : forall i p, nth_error parts i = Some p -> wellformed p).
  { intros i p H; apply nth_error_In in H.
    rewrite Forall_forall in Hparts; auto. }
  destruct Hx as [H | [H | [H | [H | [H | H]]]]].
  - rewrite Forall_forall in Hparts; auto.
  - destruct H as (i & j & _ & pi & pj & Ei & Ej & [-> | ->]);
      apply wellformed_app_l; eauto; eapply Hnth; eauto.
  - destruct H as (i & j & k & _ & pi & pj & pk & Ei & Ej & Ek & ->).
    apply wellformed_app_l; [eauto|].
    rewrite whitespace_free_app.
    rewrite (proj2 (Hnth _ _ Ej)), (proj2 (Hnth _ _ Ek)); reflexivity.
  - destruct H as (_ & first & last & E0 & El & [-> | ->]).
    + apply wellformed_app_r; [|eauto].
      apply whitespace_free_first_character, (Hnth _ _ E0).
    + apply wellformed_app_l; [eauto|].
      apply whitespace_free_first_character, (Hnth _ _ El).
  - destruct H as (_ & first & middle & last & E0 & E1 & El & ->).
    apply wellformed_app_r; [|eauto].
    rewrite whitespace_free_app, (proj2 (Hnth _ _ E0)).
    apply whitespace_free_first_character, (Hnth _ _ E1).
  - subst x; split; [|apply whitespace_free_concat; exact Hparts].
    destruct parts as [|p parts]; [congruence|].
    inversion Hparts as [|? ? [Hp _] _]; subst.
    unfold join; simpl; destruct p; [congruence | discriminate].
Qed.

Lemma name_parts_wellformed (s : str) : Forall wellformed (name_parts s).
Proof. apply name_parts_tokens. Qed.

(** Whatever the input, the list returned holds well-formed usernames. *)
Lemma generate_wellformed (s : str) (l : list str) :
  generate_username_combinations s = Ok l -> Forall wellformed l.
Proof.
  intros E; destruct (name_parts s) eqn:Ep.
  - rewrite (generate_no_parts s Ep) in E; inversion E; constructor.
  - destruct (generate_candidates s) as (u & Eu & _ & Hin & _); [congruence|].
    rewrite Eu in E; inversion E; subst l.
    apply Forall_forall; intros x Hx; apply sorted_In, Hin in Hx.
    eapply candidate_wellformed; [| apply name_parts_wellformed | exact Hx].
    congruence.
Qed.

End Candidates.

Section Provenance.

Lemma split_from_chars (s tok t : str) (c : char) :
  In t (split_from tok s) -> In c t -> In c tok \/ In c s.
Proof.
  revert tok; induction s as [|d s IH]; intros tok Ht Hc; simpl in Ht.
  - destruct tok as [|e tok]; [destruct Ht|].
    destruct Ht as [<- | []]; left; apply in_rev; exact Hc.
  - destruct (isspace_char d).
    + destruct tok as [|e tok].
      * destruct (IH [] Ht Hc) as [[] | H]; right; right; exact H.
      * destruct Ht as [<- | Ht]; [left; apply in_rev; exact Hc|].
        destruct (IH [] Ht Hc) as [[] | H]; right; right; exact H.
    + destruct (IH (d :: tok) Ht Hc) as [[<- | H] | H].
      * right; left; reflexivity.
      * left; exact H.
      * right; right; exact H.
Qed.

Lemma strip_decompose (s : str) :
  exists w w',
    s = w ++ strip s ++ w' /\ all_whitespace w = true /\ all_whitespace w' = true.
Proof.
  destruct (lstrip_prefix s) as (w & E & Hw).
  destruct (rstrip_suffix (lstrip s)) as (w' & E' & Hw').
  exists w, w'; unfold strip; rewrite <- E', <- E; auto.
Qed.

Lemma strip_chars (s : str) (c : char) : In c (strip s) -> In c s.
Proof.
  destruct (strip_decompose s) as (w & w' & E & _); intros H.
  rewrite E, !in_app_iff; auto.
Qed.

Lemma name_parts_chars (s p : str) (c : char) :
  In p (name_parts s) -> In c p -> In c (lower s).
Proof.
  intros Hp Hc; apply strip_chars.
  destruct (split_from_chars _ _ _ _ Hp Hc) as [[] | H]; exact H.
Qed.

Lemma first_character_chars (a : str) (c : char) :
  In c (first_character a) -> In c a.
Proof.
  destruct a as [|d a]; simpl; [tauto | intros [<- | []]; auto].
Qed.

(** Every character of a candidate is a character of some name part. *)
Lemma candidate_chars (parts : list str) (x : str) (c : char) :
  candidate parts x -> In c x -> exists p, In p parts /\ In c p.
Proof.
  intros Hx Hc.
  destruct Hx as [H | [H | [H | [H | [H | H]]]]].
  - eauto.
  - destruct H as (i & j & _ & pi & pj & Ei & Ej & [-> | ->]);
      apply nth_error_In in Ei, Ej; apply in_app_iff in Hc; destruct Hc; eauto.
  - destruct H as (i & j & k & _ & pi & pj & pk & Ei & Ej & Ek & ->).
    apply nth_error_In in Ei, Ej, Ek.
    rewrite !in_app_iff in Hc; destruct Hc as [? | [? | ?]]; eauto.
  - destruct H as (_ & first & last & E0 & El & [-> | ->]);
      apply nth_error_In in E0, El; apply in_app_iff in Hc;
      destruct Hc as [Hc | Hc]; try apply first_character_chars in Hc; eauto.
  - destruct H as (_ & first & middle & last & E0 & E1 & El & ->).
    apply nth_error_In in E0, E1, El.
    rewrite !in_app_iff in Hc; destruct Hc as [[Hc | Hc] | Hc];
      try apply first_character_chars in Hc; eauto.
  - subst x; unfold join in Hc; apply in_concat in Hc.
    destruct Hc as (p & Hp & Hc); eauto.
Qed.

End Provenance.

Section Padding.

Lemma name_parts_strip (s : str) : name_parts (strip s) = name_parts s.
Proof.
  destruct (strip_decompose s) as (w & w' & E & Hw & Hw').
  rewrite E at 2; symmetry; apply name_parts_pad; assumption.
Qed.

(** Stripping the input first, as the caller does, changes nothing. *)
Lemma generate_strip (s : str) :
  generate_username_combinations (strip s) = generate_username_combinations s.
Proof.
  unfold generate_username_combinations; rewrite name_parts_strip; reflexivity.
Qed.

End Padding.

Section TwoTokens.

Lemma candidate_two (a b x : str) :
  candidate [a; b] x <->
  x = a \/ x = b \/ x = a ++ b \/ x = b ++ a \/
  x = first_character a ++ b \/ x = a ++ first_character b.
Proof.
  assert (Hnth : forall i p, nth_error [a; b] i = Some p ->
            (i = 0 /\ p = a)%nat \/ (i = 1 /\ p = b)%nat).
  { intros [|[|i]] p H; simpl in H; try (inversion H; auto).
    destruct i; discriminate. }
  unfold candidate, pair_at, triple_at, first_letter_at, middle_initial_at, join.
  simpl; rewrite app_nil_r; split.
  - intros [H | [H | [H | [H | [H | H]]]]].
    + destruct H as [<- | [<- | []]]; auto 10.
    + destruct H as (i & j & Hij & pi & pj & Ei & Ej & H).
      destruct (Hnth _ _ Ei) as [[-> ->] | [-> ->]];
        destruct (Hnth _ _ Ej) as [[-> ->] | [-> ->]]; try lia.
      destruct H as [-> | ->]; auto 10.
    + destruct H as (i & j & k & Hijk & pi & pj & pk & Ei & Ej & Ek & _).
      destruct (Hnth _ _ Ei) as [[-> _] | [-> _]];
        destruct (Hnth _ _ Ej) as [[-> _] | [-> _]];
        destruct (Hnth _ _ Ek) as [[-> _] | [-> _]]; lia.
    + destruct H as (_ & first & last & E0 & El & H).
      inversion E0; inversion El; subst; destruct H as [-> | ->]; auto 10.
    + destruct H as [H _]; lia.
    + auto 10.
  - intros [-> | [-> | [-> | [-> | [-> | ->]]]]].
    + left; auto.
    + left; auto.
    + right; right; right; right; right; reflexivity.
    + right; left; exists 0%nat, 1%nat; split; [lia|]. exists a, b; auto.
    + right; right; right; left; split; [lia|]. exists a, b; auto.
    + right; right; right; left; split; [lia|]. exists a, b; auto.
Qed.

End TwoTokens.

(** * Further properties of the generator: the statements *)

(** X1. Every username returned is well formed: it is not the empty
    string and holds no whitespace character, whatever the input. *)
Theorem usernames_wellformed (s : str) :
  exists l,
    generate_username_combinations s = Ok l /\
    Forall (fun x => x <> [] /\ whitespace_free x = true) l.
Proof.
  destruct (generate_returns s) as (l & E).
  exists l; split; [exact E | exact (generate_wellformed s l E)].
Qed.

(** X2. A username holds only characters of the lower-cased input: each
    of its characters occurs in [full_name.lower()]. *)
Theorem usernames_from_input (s : str) :
  exists l,
    generate_username_combinations s = Ok l /\
    forall x c, In x l -> In c x -> In c (lower s).
Proof.
  destruct (name_parts s) eqn:Ep.
  - exists []; split; [apply generate_no_parts; exact Ep | intros x c []].
  - destruct (generate_candidates s) as (u & Eu & _ & Hin & _); [congruence|].
    exists (sorted u); split; [exact Eu|].
    intros x c Hx Hc; apply sorted_In, Hin in Hx.
    destruct (candidate_chars _ _ _ Hx Hc) as (p & Hp & Hcp).
    eapply name_parts_chars; eassumption.
Qed.

(** X3. Leading and trailing whitespace of any kind and length (spaces,
    tabs, line breaks, no-break spaces, ...) does not change the result. *)
Theorem outer_whitespace_ignored (w s w' : str) :
  all_whitespace w = true -> all_whitespace w' = true ->
  generate_username_combinations (w ++ s ++ w') = generate_username_combinations s.
Proof.
  intros Hw Hw'; unfold generate_username_combinations.
  rewrite name_parts_pad by assumption; reflexivity.
Qed.

Lemma outer_whitespace_ignored_witness :
  generate_username_combinations
    ([0x9; 0xA0]%N ++ of_string "Ada Lovelace" ++ [0xA; 0x3000]%N) =
  generate_username_combinations (of_string "Ada Lovelace").
Proof.
  apply (outer_whitespace_ignored [0x9; 0xA0]%N (of_string "Ada Lovelace")
           [0xA; 0x3000]%N); vm_compute; reflexivity.
Defined.

(** X4. With exactly two name parts [a] and [b] the result holds [a], [b],
    [a + b], [b + a], [a[0] + b], [a + b[0]] and nothing else. *)
Theorem two_tokens_exact (s a b : str) :
  name_parts s = [a; b] ->
  exists l,
    generate_username_combinations s = Ok l /\
    forall x, In x l <->
              x = a \/ x = b \/ x = a ++ b \/ x = b ++ a \/
              x = first_character a ++ b \/ x = a ++ first_character b.
Proof.
  intros E.
  destruct (generate_candidates s) as (u & Eu & _ & Hin & _); [congruence|].
  exists (sorted u); split; [exact Eu|].
  intros x; rewrite sorted_In, Hin, E; apply candidate_two.
Qed.

Lemma two_tokens_exact_witness :
  exists l,
    generate_username_combinations (of_string "Grace Hopper") = Ok l /\
    forall x, In x l <->
              x = of_string "grace" \/ x = of_string "hopper" \/
              x = of_string "grace" ++ of_string "hopper" \/
              x = of_string "hopper" ++ of_string "grace" \/
              x = first_character (of_string "grace") ++ of_string "hopper" \/
              x = of_string "grace" ++ first_character (of_string "hopper").
Proof.
  apply (two_tokens_exact (of_string "Grace Hopper")); vm_compute; reflexivity.
Defined.

(** * Column selection *)

Section Columns.

Lemma contains_In (x : str) (l : list str) : contains x l = true <-> In x l.
Proof.
  unfold contains; rewrite existsb_exists; split.
  - intros (y & Hy & E); apply str_eqb_eq in E; subst; exact Hy.
  - intros H; exists x; split; [exact H | apply str_eqb_refl].
Qed.

Lemma contains_false (x : str) (l : list str) : contains x l = false <-> ~ In x l.
Proof.
  rewrite <- contains_In; destruct (contains x l); split; congruence.
Qed.

(** Auto-detection returns the first recognised label. *)
Lemma auto_detect_some (columns : list str) (col : str) :
  auto_detect columns = Some col ->
  exists before after,
    columns = before ++ col :: after /\
    known_header col /\ Forall (fun c => ~ known_header c) before.
Proof.
  induction columns as [|c columns IH]; cbn [auto_detect]; [discriminate|].
  destruct (contains (lower c) possible_columns) eqn:E.
  - intros [= ->]; exists [], columns; repeat split; [|constructor].
    apply contains_In; exact E.
  - intros H; destruct (IH H) as (before & after & -> & Hk & Hb).
    exists (c :: before), after; repeat split; [exact Hk|].
    constructor; [apply contains_false; exact E | exact Hb].
Qed.

Lemma auto_detect_none (columns : list str) :
  auto_detect columns = None -> Forall (fun c => ~ known_header c) columns.
Proof.
  induction columns as [|c columns IH]; cbn [auto_detect]; [constructor|].
  destruct (contains (lower c) possible_columns) eqn:E; [discriminate|].
  intros H; constructor; [apply contains_false; exact E | auto].
Qed.

Lemma select_auto (columns : list str) :
  match select_name_column columns None with
  | Next col =>
      exists before after,
        columns = before ++ col :: after /\
        Forall (fun c => ~ known_header c) before /\
        (known_header col \/ (before = [] /\ Forall (fun c => ~ known_header c) after))
  | Throw e => columns = [] /\ e = IndexError
  | SystemExit _ => False
  end.
Proof.
  unfold select_name_column.
  destruct (auto_detect columns) as [col|] eqn:E.
  - destruct (auto_detect_some _ _ E) as (before & after & -> & Hk & Hb).
    exists before, after; auto.
  - apply auto_detect_none in E.
    destruct columns as [|c columns]; [split; reflexivity|].
    rewrite getitem_first; simpl.
    inversion E; subst.
    exists [], columns; repeat split; [constructor | right; split; auto].
Qed.

Lemma select_empty_option (columns : list str) :
  select_name_column columns (Some []) = select_name_column columns None.
Proof. reflexivity. Qed.

End Columns.

(** * The row loop *)

Section Rows.

Lemma lower_nil (s : str) : lower s = [] -> s = [].
Proof.
  destruct s as [|c s]; [reflexivity|]; unfold lower; cbn [do_lower]; intros E.
  apply app_eq_nil in E; destruct E as [E _].
  destruct (lower_ucs4_whitespace [] c s) as [H1 H2].
  destruct (isspace_char c); [rewrite H1 in E by reflexivity; discriminate|].
  destruct (H2 eq_refl) as [Hne _]; contradiction.
Qed.

Lemma lstrip_all_whitespace (s : str) : all_whitespace s = true -> lstrip s = [].
Proof.
  induction s as [|c s IH]; [reflexivity|]; simpl; intros H.
  apply andb_true_iff in H; destruct H as [-> H]; auto.
Qed.

Lemma strip_nil (s : str) : strip s = [] <-> all_whitespace s = true.
Proof.
  split.
  - intros E; destruct (strip_decompose s) as (w & w' & Es & Hw & Hw').
    rewrite Es, E; unfold all_whitespace in *; simpl.
    rewrite forallb_app, Hw, Hw'; reflexivity.
  - intros H; unfold strip; rewrite (lstrip_all_whitespace s H); reflexivity.
Qed.

(** The test of line 105 fails exactly on the skipped cells. *)
Lemma row_test_false (cell : str) :
  negb (match strip cell with [] => true | _ => false end) &&
  negb (contains (lower (strip cell)) placeholders) = false <-> skipped cell.
Proof.
  unfold skipped; rewrite <- strip_nil, andb_false_iff, !negb_false_iff, contains_In.
  unfold placeholders; simpl; split.
  - intros [H | [H | [H | [H | []]]]]; auto.
    + destruct (strip cell); [auto | discriminate].
    + left; apply lower_nil; auto.
  - intros [H | [H | H]]; auto.
    left; rewrite H; reflexivity.
Qed.

Lemma row_test_true (cell : str) :
  negb (match strip cell with [] => true | _ => false end) &&
  negb (contains (lower (strip cell)) placeholders) = true <-> ~ skipped cell.
Proof.
  rewrite <- row_test_false.
  destruct (negb _ && negb _); split; congruence.
Qed.

Lemma set_update_adds (l : list str) (u : pyset) :
  adds u (set_update u l) (fun x => In x l) (List.length l).
Proof.
  unfold set_update; revert u; induction l as [|y l IH]; intros u; simpl.
  - eapply adds_weaken; [apply adds_refl | tauto | lia].
  - eapply adds_weaken; [eapply adds_trans; [apply adds_add | apply IH] | | lia].
    intros x; simpl; intuition congruence.
Qed.

Lemma collect_usernames_adds (cells : list str) :
  exists all_usernames,
    collect_usernames cells = Ok all_usernames /\
    NoDup all_usernames /\
    forall x, In x all_usernames <-> exists cell, In cell cells /\ row_usernames cell x.
Proof.
  unfold collect_usernames.
  match goal with |- exists a, for_each _ ?b _ = _ /\ _ =>
    destruct (for_each_adds cells b row_usernames
                (fun cell => match generate_username_combinations cell with
                             | Ok l => List.length l
                             | Raise _ => 0%nat
                             end)) with (u := set_new)
      as (all_usernames & E & Hnd & Hin & _)
  end.
  { intros cell u _; cbv zeta.
    destruct (negb _ && negb _) eqn:T.
    - apply row_test_true in T.
      rewrite generate_strip.
      destruct (generate_returns cell) as (l & El); rewrite El; cbn [bind].
      eexists; split; [reflexivity|].
      eapply adds_weaken; [apply set_update_adds | | lia].
      intros x; unfold row_usernames; split.
      + intros H; split; [exact T | eauto].
      + intros (_ & l' & El' & H); rewrite El in El'; inversion El'; subst; exact H.
    - apply row_test_false in T.
      eexists; split; [reflexivity|].
      eapply adds_weaken; [apply adds_refl | | lia].
      intros x; unfold row_usernames; tauto. }
  exists all_usernames; split; [exact E|].
  split; [apply Hnd; constructor|].
  intros x; rewrite Hin; unfold set_new; simpl; tauto.
Qed.

End Rows.

(** * The output file *)

Section Output.

Lemma fold_left_append {A : Type} (g : A -> str) (l : list A) (file : str) :
  fold_left (fun file x => file ++ g x) l file = file ++ flat_map g l.
Proof.
  revert file; induction l as [|x l IH]; intros file; simpl.
  - rewrite app_nil_r; reflexivity.
  - rewrite IH, app_assoc; reflexivity.
Qed.

Lemma write_usernames_lines (all_usernames : pyset) :
  write_usernames all_usernames =
  flat_map (fun username => username ++ [newline]) (sorted all_usernames).
Proof.
  unfold write_usernames.
  rewrite (fold_left_append (fun username => username ++ [newline])); reflexivity.
Qed.

Lemma split_from_line (u tok rest : str) :
  whitespace_free u = true ->
  split_from tok (u ++ newline :: rest) =
  match tok ++ u with
  | [] => split_from [] rest
  | _ => (rev tok ++ u) :: split_from [] rest
  end.
Proof.
  revert tok; induction u as [|c u IH]; intros tok H.
  - rewrite !app_nil_r; simpl app; cbn [split_from].
    change (isspace_char newline) with true; cbv iota.
    destruct tok; reflexivity.
  - simpl in H; apply andb_true_iff in H; destruct H as [Hc H].
    apply negb_true_iff in Hc.
    simpl app; cbn [split_from]; rewrite Hc, IH by exact H.
    simpl; rewrite <- app_assoc; simpl.
    destruct tok; reflexivity.
Qed.

(** Splitting the written text gives the lines back. *)
Lemma split_lines (l : list str) :
  Forall wellformed l ->
  split (flat_map (fun username => username ++ [newline]) l) = l.
Proof.
  unfold split; induction 1 as [|u l [Hne Hf] _ IH]; [reflexivity|].
  cbn [flat_map]; rewrite <- app_assoc; simpl app.
  rewrite split_from_line by exact Hf; simpl app.
  destruct u; [congruence|]. rewrite IH; reflexivity.
Qed.

Lemma count_newlines (l : list str) :
  Forall wellformed l ->
  count_occ N.eq_dec (flat_map (fun username => username ++ [newline]) l) newline =
  List.length l.
Proof.
  induction 1 as [|u l [_ Hf] _ IH]; [reflexivity|].
  cbn [flat_map]; rewrite !count_occ_app.
  assert (Hu : count_occ N.eq_dec u newline = 0%nat).
  { apply count_occ_not_In; intros Hin.
    unfold whitespace_free in Hf; rewrite forallb_forall in Hf.
    specialize (Hf _ Hin); vm_compute in Hf; discriminate. }
  transitivity (0 + 1 + List.length l)%nat; [|reflexivity].
  apply (f_equal2 Nat.add);
    [apply (f_equal2 Nat.add); [exact Hu | vm_compute; reflexivity] | exact IH].
Qed.

Lemma generate_some (s : str) :
  all_whitespace s = false ->
  exists x l, generate_username_combinations s = Ok (x :: l).
Proof.
  intros Hs.
  assert (Hne : name_parts s <> []) by (rewrite name_parts_nil; congruence).
  destruct (generate_candidates s Hne) as (u & E & _ & Hin & _).
  destruct (name_parts s) as [|p parts] eqn:Ep; [congruence|].
  assert (Hp : In p (sorted u)) by (apply sorted_In, Hin; left; left; reflexivity).
  destruct (sorted u) as [|x l]; [destruct Hp|].
  exists x, l; exact E.
Qed.

Lemma collect_usernames_wellformed (cells : list str) (all_usernames : pyset) :
  collect_usernames cells = Ok all_usernames -> Forall wellformed all_usernames.
Proof.
  intros E; destruct (collect_usernames_adds cells) as (u & Eu & _ & Hin).
  rewrite Eu in E; inversion E; subst u.
  apply Forall_forall; intros x Hx; apply Hin in Hx.
  destruct Hx as (cell & _ & _ & l & El & Hl).
  pose proof (generate_wellformed _ _ El) as Hw.
  rewrite Forall_forall in Hw; auto.
Qed.

Lemma sorted_wellformed (l : list str) :
  Forall wellformed l -> Forall wellformed (sorted l).
Proof.
  rewrite !Forall_forall; intros H x Hx; apply H, sorted_In, Hx.
Qed.

End Output.

(** * Further properties of the caller *)

(** X5. The column used is always a label of the sheet, and when a
    non-empty [-c] option is given it is that very label: a named column
    is never replaced by a guess. *)
Theorem chosen_column_exists (columns : list str) (column_name : option str)
    (col : str) :
  select_name_column columns column_name = Next col ->
  In col columns /\
  (forall name, column_name = Some name -> name <> [] -> col = name).
Proof.
  assert (Hauto : select_name_column columns None = Next col -> In col columns).
  { intros H; pose proof (select_auto columns) as Ha; rewrite H in Ha.
    destruct Ha as (before & after & -> & _); apply in_elt. }
  destruct column_name as [[|c name]|]; intros H.
  - split; [apply Hauto; exact H | intros name [= <-]; congruence].
  - revert H; unfold select_name_column.
    destruct (contains (c :: name) columns) eqn:E; intros H; [|discriminate].
    inversion H; subst col; split; [apply contains_In; exact E|].
    intros name' [= <-]; reflexivity.
  - split; [apply Hauto; exact H | intros name; discriminate].
Qed.

Lemma chosen_column_exists_witness :
  In (of_string "Full Name") [of_string "Id"; of_string "Full Name"] /\
  (forall name, Some (of_string "Full Name") = Some name -> name <> [] ->
                of_string "Full Name" = name).
Proof.
  apply (chosen_column_exists [of_string "Id"; of_string "Full Name"]
           (Some (of_string "Full Name"))).
  vm_compute; reflexivity.
Defined.

(** X6. Without a [-c] option the column used is the first one whose
    lower-cased label is one of the six known headers; when no label is
    known it is the first column; and the selection fails, with
    [IndexError], only for a sheet without columns. *)
Theorem auto_detection_first_match (columns : list str) :
  match select_name_column columns None with
  | Next col =>
      exists before after,
        columns = before ++ col :: after /\
        Forall (fun c => ~ known_header c) before /\
        (known_header col \/ (before = [] /\ Forall (fun c => ~ known_header c) after))
  | Throw e => columns = [] /\ e = IndexError
  | SystemExit _ => False
  end.
Proof. apply select_auto. Qed.

(** X7. The row loop never raises, and the set it builds is the union of
    the results of the generator over the cells that are not skipped. *)
Theorem rows_union (cells : list str) :
  exists all_usernames,
    collect_usernames cells = Ok all_usernames /\
    NoDup all_usernames /\
    forall x,
      In x all_usernames <->
      exists cell l,
        In cell cells /\ ~ skipped cell /\
        generate_username_combinations cell = Ok l /\ In x l.
Proof.
  destruct (collect_usernames_adds cells) as (u & E & Hnd & Hin).
  exists u; split; [exact E|]. split; [exact Hnd|].
  intros x; rewrite Hin; unfold row_usernames; split.
  - intros (cell & Hc & Hs & l & El & Hl); exists cell, l; auto.
  - intros (cell & l & Hc & Hs & El & Hl); exists cell; eauto.
Qed.

(** X8. The set built is empty exactly when every cell is skipped: each
    cell that passes the test of line 105 yields at least one username. *)
Theorem no_usernames_iff_all_skipped (cells : list str) :
  collect_usernames cells = Ok [] <-> Forall skipped cells.
Proof.
  destruct (collect_usernames_adds cells) as (u & E & _ & Hin); split.
  - intros E0; rewrite E0 in E; inversion E; subst u.
    apply Forall_forall; intros cell Hc.
    apply row_test_false.
    destruct (negb _ && negb _) eqn:T; [exfalso | reflexivity].
    apply row_test_true in T.
    assert (Hw : all_whitespace cell = false).
    { destruct (all_whitespace cell) eqn:W; [|reflexivity].
      exfalso; apply T; left; exact W. }
    destruct (generate_some cell Hw) as (x & l & El).
    apply (proj2 (Hin x)); exists cell; split; [exact Hc|].
    split; [exact T|]. exists (x :: l); split; [exact El | left; reflexivity].
  - intros Hall; rewrite E; f_equal.
    destruct u as [|x u]; [reflexivity | exfalso].
    destruct (proj1 (Hin x) (or_introl eq_refl)) as (cell & Hc & Hs & _).
    rewrite Forall_forall in Hall; apply Hs, Hall, Hc.
Qed.

Lemma no_usernames_iff_all_skipped_witness :
  collect_usernames [of_string "  "; of_string "NaN"; of_string " None "] = Ok [].
Proof.
  apply (proj2 (no_usernames_iff_all_skipped
                  [of_string "  "; of_string "NaN"; of_string " None "])).
  apply Forall_cons; [left; vm_compute; reflexivity|].
  apply Forall_cons; [right; left; vm_compute; reflexivity|].
  apply Forall_cons; [right; right; vm_compute; reflexivity|].
  apply Forall_nil.
Defined.

(** X9. A cell holding only the word "nan" or "none", in any letter case,
    is dropped although the generator would turn it into a username: a
    person with that one-word name gets no entry. *)
Theorem one_word_placeholder_dropped (cell : str) :
  lower (strip cell) = of_string "nan" \/ lower (strip cell) = of_string "none" ->
  collect_usernames [cell] = Ok [] /\
  generate_username_combinations cell = Ok [lower (strip cell)].
Proof.
  intros H; split.
  - unfold collect_usernames; cbn [for_each]; cbv zeta.
    destruct (negb _ && negb _) eqn:T; [|reflexivity].
    apply row_test_true in T; exfalso; apply T; right; exact H.
  - rewrite <- generate_strip; unfold generate_username_combinations, name_parts.
    destruct H as [-> | ->]; vm_compute; reflexivity.
Qed.

Lemma one_word_placeholder_dropped_witness :
  collect_usernames [of_string " None "] = Ok [] /\
  generate_username_combinations (of_string " None ") =
    Ok [lower (strip (of_string " None "))].
Proof.
  apply (one_word_placeholder_dropped (of_string " None ")).
  right; vm_compute; reflexivity.
Defined.

(** X10. The text written does not depend on the order of the rows nor on
    repeated rows: two sheets with the same cells, in any order and any
    multiplicity, give the same file. *)
Theorem row_order_irrelevant (cells cells' : list str) :
  (forall cell, In cell cells <-> In cell cells') ->
  exists all_usernames all_usernames',
    collect_usernames cells = Ok all_usernames /\
    collect_usernames cells' = Ok all_usernames' /\
    write_usernames all_usernames = write_usernames all_usernames'.
Proof.
  intros Hsame.
  destruct (collect_usernames_adds cells) as (u & E & Hnd & Hin).
  destruct (collect_usernames_adds cells') as (u' & E' & Hnd' & Hin').
  exists u, u'; split; [exact E|]. split; [exact E'|].
  unfold write_usernames; rewrite (sorted_iteration_order u u' Hnd Hnd'); [reflexivity|].
  intros x; rewrite Hin, Hin'; split; intros (cell & Hc & H); exists cell;
    (split; [apply Hsame; exact Hc | exact H]).
Qed.

Lemma row_order_irrelevant_witness :
  exists all_usernames all_usernames',
    collect_usernames [of_string "Ada Lovelace"; of_string "Alan Turing"] =
      Ok all_usernames /\
    collect_usernames
      [of_string "Alan Turing"; of_string "Ada Lovelace"; of_string "Alan Turing"] =
      Ok all_usernames' /\
    write_usernames all_usernames = write_usernames all_usernames'.
Proof.
  apply (row_order_irrelevant
           [of_string "Ada Lovelace"; of_string "Alan Turing"]
           [of_string "Alan Turing"; of_string "Ada Lovelace"; of_string "Alan Turing"]).
  intros cell; simpl; tauto.
Defined.

(** X11. Reading the written text back with [split()] returns the
    usernames of the set, each once, in strictly increasing order: one
    username per line, no blank line, nothing merged or cut. *)
Theorem output_round_trip (cells : list str) :
  exists all_usernames,
    collect_usernames cells = Ok all_usernames /\
    split (write_usernames all_usernames) = sorted all_usernames /\
    StronglySorted str_lt (split (write_usernames all_usernames)) /\
    forall x, In x (split (write_usernames all_usernames)) <-> In x all_usernames.
Proof.
  destruct (collect_usernames_adds cells) as (u & E & Hnd & _).
  assert (Hs : split (write_usernames u) = sorted u).
  { rewrite write_usernames_lines; apply split_lines, sorted_wellformed.
    apply (collect_usernames_wellformed cells); exact E. }
  exists u; split; [exact E|]. split; [exact Hs|]. rewrite Hs.
  split; [apply sorted_strict; exact Hnd | intros x; apply sorted_In].
Qed.

(** X12. The number of line breaks in the written text is the size of the
    set, the count printed as the total of unique usernames. *)
Theorem output_line_count (cells : list str) :
  exists all_usernames,
    collect_usernames cells = Ok all_usernames /\
    count_occ N.eq_dec (write_usernames all_usernames) newline =
    List.length all_usernames.
Proof.
  destruct (collect_usernames_adds cells) as (u & E & _).
  exists u; split; [exact E|].
  rewrite write_usernames_lines, count_newlines, sorted_length; [reflexivity|].
  apply sorted_wellformed, (collect_usernames_wellformed cells); exact E.
Qed.


(** * Lower case *)

Section LowerCase.

Import Unicode.

Lemma simple_mapping_expand (c d : N) (t : list (N * N * N * N)) :
  forallb (fun e => match e with (_, _, step, _) => (0 <? step)%N end) t = true ->
  simple_mapping c t = Some d -> In (c, d) (flat_map expand_entry t).
Proof.
  induction t as [|[[[lo hi] step] tlo] t IH]; cbn [simple_mapping forallb flat_map];
    [discriminate|].
  intros Hpos; apply andb_true_iff in Hpos; destruct Hpos as [Hstep Hpos].
  apply N.ltb_lt in Hstep; rewrite in_app_iff.
  destruct ((lo <=? c) && (c <=? hi) && ((c - lo) mod step =? 0))%N eqn:E;
    [|intros H; right; apply IH; assumption].
  intros [= <-]; left.
  rewrite !andb_true_iff, !N.leb_le, N.eqb_eq in E; destruct E as [[Hlo Hhi] Hmod].
  apply N.Div0.div_exact in Hmod.
  unfold expand_entry; apply in_map_iff.
  exists (N.to_nat ((c - lo) / step)); split.
  - rewrite N2Nat.id; f_equal; lia.
  - apply in_seq; split; [lia|].
    assert ((c - lo) / step <= (hi - lo) / step)%N
      by (apply N.Div0.div_le_mono; lia).
    lia.
Qed.

Lemma lower_stable_spec (d : char) :
  lower_stable d = true -> d <> 0x3A3%N /\ ToLowerFull d = [d].
Proof.
  unfold lower_stable; rewrite andb_true_iff, negb_true_iff, N.eqb_neq.
  intros [Hd H]; split; [exact Hd|].
  destruct (ToLowerFull d) as [|d' [|? ?]]; try discriminate.
  apply N.eqb_eq in H; rewrite H; reflexivity.
Qed.

(** Whatever lower-casing writes is left alone by lower-casing. *)
Lemma lower_ucs4_stable (before : str) (c : char) (after : str) (d : char) :
  In d (lower_ucs4 before c after) -> lower_stable d = true.
Proof.
  unfold lower_ucs4; destruct (c =? 0x3A3)%N eqn:Ec.
  - intros [<- | []].
    destruct (handle_capital_sigma_cases before after) as [-> | ->];
      vm_compute; reflexivity.
  - unfold ToLowerFull, full_mapping.
    destruct (special_mapping c lower_special) as [m|] eqn:E1.
    { apply special_mapping_In in E1; intros Hd.
      assert (H : forallb (fun e => forallb lower_stable (snd e)) lower_special = true)
        by (vm_compute; reflexivity).
      rewrite forallb_forall in H; specialize (H _ E1); simpl in H.
      rewrite forallb_forall in H; auto. }
    destruct (simple_mapping c lower_table) as [d'|] eqn:E2.
    { intros [<- | []].
      apply simple_mapping_expand in E2; [|vm_compute; reflexivity].
      assert (H : forallb (fun p => lower_stable (snd p))
                    (flat_map expand_entry lower_table) = true)
        by (vm_compute; reflexivity).
      rewrite forallb_forall in H; exact (H _ E2). }
    intros [<- | []]; unfold lower_stable, ToLowerFull, full_mapping.
    rewrite Ec, E1, E2, N.eqb_refl; reflexivity.
Qed.

Lemma do_lower_stable (s before : str) (d : char) :
  In d (do_lower before s) -> lower_stable d = true.
Proof.
  revert before; induction s as [|c s IH]; intros before; simpl; [tauto|].
  rewrite in_app_iff; intros [H | H]; [eapply lower_ucs4_stable | eapply IH]; eauto.
Qed.

Lemma lower_fixed (x : str) :
  (forall d, In d x -> lower_stable d = true) -> lower x = x.
Proof.
  intros H; unfold lower; rewrite do_lower_no_sigma.
  - induction x as [|d x IH]; [reflexivity|].
    cbn [flat_map].
    rewrite (proj2 (lower_stable_spec d (H d (or_introl eq_refl)))), IH;
      [reflexivity | intros; apply H; right; assumption].
  - apply Forall_forall; intros d Hd; apply lower_stable_spec, H, Hd.
Qed.

Lemma generate_lower_case (s : str) (l : list str) :
  generate_username_combinations s = Ok l -> Forall (fun x => lower x = x) l.
Proof.
  intros E; destruct (name_parts s) eqn:Ep.
  - rewrite (generate_no_parts s Ep) in E; inversion E; constructor.
  - destruct (generate_candidates s) as (u & Eu & _ & Hin & _); [congruence|].
    rewrite Eu in E; inversion E; subst l.
    apply Forall_forall; intros x Hx; apply sorted_In, Hin in Hx.
    apply lower_fixed; intros d Hd.
    destruct (candidate_chars _ _ _ Hx Hd) as (p & Hp & Hdp).
    apply (do_lower_stable s []); fold (lower s).
    eapply name_parts_chars; eassumption.
Qed.

(** With one name part the result is that part alone. *)
Lemma generate_one_part (s t : str) :
  name_parts s = [t] -> generate_username_combinations s = Ok [t].
Proof.
  intros E.
  destruct (generate_candidates s) as (u & Eu & Hnd & Hin & _); [congruence|].
  rewrite Eu; f_equal.
  apply strictly_sorted_unique;
    [apply sorted_strict; exact Hnd | repeat constructor |].
  intros x; rewrite sorted_In, Hin, E; apply candidate_single.
Qed.

End LowerCase.

(** X14. Every username returned is in lower case: lower-casing it again
    leaves it unchanged. *)
Theorem usernames_lower_case (s : str) :
  exists l,
    generate_username_combinations s = Ok l /\
    Forall (fun x => lower x = x) l.
Proof.
  destruct (generate_returns s) as (l & E).
  exists l; split; [exact E | exact (generate_lower_case s l E)].
Qed.

(** X15. A username is a fixed point of the generator: given back as a
    name, each username of a result yields itself and nothing else. *)
Theorem username_regenerates_itself (s : str) :
  exists l,
    generate_username_combinations s = Ok l /\
    Forall (fun x => generate_username_combinations x = Ok [x]) l.
Proof.
  destruct (generate_returns s) as (l & E).
  exists l; split; [exact E|].
  pose proof (generate_wellformed s l E) as Hw.
  pose proof (generate_lower_case s l E) as Hl.
  rewrite Forall_forall in *; intros x Hx.
  destruct (Hw x Hx) as [Hne Hf].
  apply generate_one_part.
  rewrite (name_parts_single x Hne Hf), (Hl x Hx); reflexivity.
Qed.

(** * Lengths *)

Section Lengths.

Lemma first_character_length (a : str) :
  (List.length (first_character a) <= List.length a)%nat.
Proof. destruct a; simpl; lia. Qed.

Lemma concat_part_length (parts : list str) (i : nat) (p : str) :
  nth_error parts i = Some p ->
  (List.length p <= List.length (List.concat parts))%nat.
Proof.
  revert i; induction parts as [|q parts IH]; intros [|i] H; simpl in H;
    try discriminate; simpl; rewrite length_app.
  - inversion H; lia.
  - specialize (IH _ H); lia.
Qed.

Lemma concat_pair_length (parts : list str) (i j : nat) (pi pj : str) :
  (i < j)%nat -> nth_error parts i = Some pi -> nth_error parts j = Some pj ->
  (List.length pi + List.length pj <= List.length (List.concat parts))%nat.
Proof.
  revert i j; induction parts as [|q parts IH]; intros [|i] [|j] Hij Hi Hj;
    simpl in Hi, Hj; try discriminate; try lia; simpl; rewrite length_app.
  - inversion Hi; subst q.
    pose proof (concat_part_length _ _ _ Hj); lia.
  - assert (i < j)%nat by lia. specialize (IH _ _ H Hi Hj); lia.
Qed.

Lemma concat_triple_length (parts : list str) (i j k : nat) (pi pj pk : str) :
  (i < j < k)%nat ->
  nth_error parts i = Some pi -> nth_error parts j = Some pj ->
  nth_error parts k = Some pk ->
  (List.length pi + List.length pj + List.length pk <=
   List.length (List.concat parts))%nat.
Proof.
  revert i j k; induction parts as [|q parts IH]; intros [|i] [|j] [|k] H Hi Hj Hk;
    simpl in Hi, Hj, Hk; try discriminate; try lia; simpl; rewrite length_app.
  - inversion Hi; subst q.
    assert (Hjk : (j < k)%nat) by lia.
    pose proof (concat_pair_length _ _ _ _ _ Hjk Hj Hk); lia.
  - assert (Hijk : (i < j < k)%nat) by lia.
    specialize (IH _ _ _ Hijk Hi Hj Hk); lia.
Qed.

(** No candidate is longer than the concatenation of all the parts. *)
Lemma candidate_length (parts : list str) (x : str) :
  Forall (fun p => p <> []) parts ->
  candidate parts x ->
  (List.length x <= List.length (join parts))%nat.
Proof.
  intros Hne Hx; unfold join.
  assert (Hlen : forall i p, nth_error parts i = Some p -> (1 <= List.length p)%nat).
  { intros i p H; apply nth_error_In in H.
    rewrite Forall_forall in Hne; specialize (Hne _ H).
    destruct p; [congruence | simpl; lia]. }
  destruct Hx as [H | [H | [H | [H | [H | H]]]]].
  - apply In_nth_error in H; destruct H as (i & H).
    eapply concat_part_length; eassumption.
  - destruct H as (i & j & Hij & pi & pj & Ei & Ej & [-> | ->]);
      rewrite length_app;
      pose proof (concat_pair_length _ _ _ _ _ Hij Ei Ej); lia.
  - destruct H as (i & j & k & Hijk & pi & pj & pk & Ei & Ej & Ek & ->).
    rewrite !length_app.
    pose proof (concat_triple_length _ _ _ _ _ _ _ Hijk Ei Ej Ek); lia.
  - destruct H as (Hn & first & last & E0 & El & H).
    assert (Hpos : (0 < List.length parts - 1)%nat) by lia.
    pose proof (concat_pair_length _ _ _ _ _ Hpos E0 El).
    pose proof (first_character_length first).
    pose proof (first_character_length last).
    destruct H as [-> | ->]; rewrite length_app; lia.
  - destruct H as (Hn & first & middle & last & E0 & E1 & El & ->).
    assert (Hpos : (0 < 1 < List.length parts - 1)%nat) by lia.
    pose proof (concat_triple_length _ _ _ _ _ _ _ Hpos E0 E1 El).
    pose proof (first_character_length middle).
    rewrite !length_app; lia.
  - subst x; unfold join; lia.
Qed.

Lemma split_from_length (s tok : str) :
  (List.length (List.concat (split_from tok s)) <= List.length tok + List.length s)%nat.
Proof.
  revert tok; induction s as [|c s IH]; intros tok; simpl.
  - destruct tok; simpl; [lia|].
    rewrite app_nil_r, length_app, length_rev; simpl; lia.
  - destruct (isspace_char c).
    + destruct tok as [|e tok]; [specialize (IH []); simpl in IH; lia|].
      simpl; rewrite !length_app, length_rev; specialize (IH []); simpl in *; lia.
    + specialize (IH (c :: tok)); simpl in IH; lia.
Qed.

Lemma strip_length (s : str) : (List.length (strip s) <= List.length s)%nat.
Proof.
  destruct (strip_decompose s) as (w & w' & E & _).
  rewrite E at 2; rewrite !length_app; lia.
Qed.

End Lengths.

(** X16. No username is longer than the concatenation of all the name
    parts, which is itself in the result and is no longer than the
    lower-cased input. *)
Theorem full_name_is_longest (s : str) :
  name_parts s <> [] ->
  exists l,
    generate_username_combinations s = Ok l /\
    In (join (name_parts s)) l /\
    (List.length (join (name_parts s)) <= List.length (lower s))%nat /\
    forall x, In x l -> (List.length x <= List.length (join (name_parts s)))%nat.
Proof.
  intros Hne.
  destruct (generate_candidates s Hne) as (u & E & _ & Hin & _).
  exists (sorted u); split; [exact E|].
  split; [apply sorted_In, Hin; do 5 right; reflexivity|].
  split.
  - unfold join, name_parts, split.
    eapply Nat.le_trans; [apply split_from_length | simpl; apply strip_length].
  - intros x Hx; apply sorted_In, Hin in Hx.
    apply candidate_length; [apply name_parts_nonempty | exact Hx].
Qed.

Lemma full_name_is_longest_witness :
  exists l,
    generate_username_combinations (of_string "Ada King Lovelace") = Ok l /\
    In (join (name_parts (of_string "Ada King Lovelace"))) l /\
    (List.length (join (name_parts (of_string "Ada King Lovelace"))) <=
     List.length (lower (of_string "Ada King Lovelace")))%nat /\
    forall x, In x l ->
      (List.length x <=
       List.length (join (name_parts (of_string "Ada King Lovelace"))))%nat.
Proof.
  apply (full_name_is_longest (of_string "Ada King Lovelace")).
  vm_compute; discriminate.
Defined.
